(** * Php::File — lazy compilation, execution and include-once of a script file

    A shallow embedding of [zend/file.cpp] (PHP-CPP).  The class keeps the
    resolved path of a script and a memoized [Opcodes] object; its methods
    talk to the Zend engine (stream opening, compilation, execution, the
    table [EG(included_files)]) and to the filesystem ([stat]).

    The engine and the filesystem are external collaborators: they are
    gathered in the class [Engine] below and every result is stated for an
    arbitrary engine.  What the methods of [File] do with them is written
    out call by call, in the order of the source. *)

From stdpp Require Import base gmap sets list strings.

Set Default Proof Using "Type".

(** ** Outcomes of a call *)

(** A call into the engine either returns or is left by a fault (a PHP
    exception rethrown as a C++ exception, or a bailout). *)
Inductive Completion (Fault A : Type) : Type :=
| Returns (a : A)
| Raises (e : Fault).
Arguments Returns {Fault A} a.
Arguments Raises {Fault A} e.

(** A method of the class either returns, or passes on a fault of the
    engine, or dereferences an empty [std::unique_ptr] (undefined behaviour
    in C++). *)
Inductive Result (Fault A : Type) : Type :=
| Ok (a : A)
| Thrown (e : Fault)
| NullDeref.
Arguments Ok {Fault A} a.
Arguments Thrown {Fault A} e.
Arguments NullDeref {Fault A}.

Definition completed {Fault A} (c : Completion Fault A) : Result Fault A :=
  match c with
  | Returns a => Ok a
  | Raises e => Thrown e
  end.

(** ** File handles *)

(** The part of [zend_file_handle] that [File::compile] reads and writes,
    with an identity so that opening and destroying can be matched. *)
Record zend_file_handle : Type := mk_handle {
  handle_id : nat;
  filename : string;
  opened_path : option string
}.

Definition with_opened_path (p : string) (h : zend_file_handle) : zend_file_handle :=
  {| handle_id := handle_id h; filename := filename h; opened_path := Some p |}.

(** [if (!filehandle.opened_path) filehandle.opened_path = zend_string_copy(_path);] *)
Definition ensure_opened_path (p : string) (h : zend_file_handle) : zend_file_handle :=
  match opened_path h with
  | None => with_opened_path p h
  | Some _ => h
  end.

(** Removes one occurrence of a handle id from the open handles. *)
Fixpoint release (id : nat) (l : list nat) : list nat :=
  match l with
  | [] => []
  | x :: l' => if Nat.eqb x id then l' else x :: release id l'
  end.

(** ** The external collaborators *)

(** [Ext] is the state of everything outside this class: the filesystem,
    the include path, the engine.  [Program] is what the compilation
    backend produces ([zend_op_array *], possibly null), [Value] is
    [Php::Value], [Fault] is what the execution backend raises.

    - [zend_resolve_path]: the include-path resolution of the engine, null
      ([None]) when the name cannot be resolved;
    - [zend_stream_open_raw]: [FAILURE] is [None]; on [SUCCESS] the handle's
      [opened_path], which the stream may leave null;
    - [stat_raw]: whether [stat(2)] returned 0;
    - [zend_compile_file_raw]: the compilation backend, called with
      [ZEND_INCLUDE] under [ZEND_COMPILE_DEFAULT]; it reports a failure
      through the program it returns, and nothing here excludes that it
      leaves by a fault (a bailout on a fatal error) instead;
    - [program_valid]: whether a program is well formed;
    - [zend_execute_raw]: the execution backend; a script may load further
      files, so it works on the table of included files as well;
    - [null_value]: [Php::Value(nullptr)]. *)
Class Engine (Ext Program Value Fault : Type) : Type := {
  zend_resolve_path : string → Ext → option string;
  zend_stream_open_raw : string → Ext → option (option string) * Ext;
  stat_raw : string → Ext → bool * Ext;
  zend_compile_file_raw :
    zend_file_handle → Ext → Completion Fault Program * Ext;
  program_valid : Program → bool;
  zend_execute_raw :
    Program → gset string → Ext → Completion Fault Value * gset string * Ext;
  null_value : Value
}.

Section ScriptFile.
Context {Ext Program Value Fault : Type}.
Context {Eng : Engine Ext Program Value Fault}.

(** *** The observable calls *)

(** Every call that leaves the class is recorded, the latest first. *)
Inductive Event : Type :=
| EvStreamOpen (path : string) (handle : option nat)
| EvStat (path : string)
| EvCompileFile (h : zend_file_handle) (result : Completion Fault Program)
| EvDestroyFileHandle (id : nat)
| EvHashAdd (path : string)
| EvExecute (program : Program).

Record World : Type := mk_world {
  included_files : gset string;   (* EG(included_files) *)
  ext : Ext;
  open_handles : list nat;        (* opened and not yet destroyed *)
  next_handle : nat;
  trace : list Event
}.

Definition is_fs_access (e : Event) : bool :=
  match e with EvStreamOpen _ _ | EvStat _ => true | _ => false end.
Definition is_compilation (e : Event) : bool :=
  match e with EvCompileFile _ _ => true | _ => false end.
Definition is_execution (e : Event) : bool :=
  match e with EvExecute _ => true | _ => false end.

Fixpoint count (P : Event → bool) (t : list Event) : nat :=
  match t with
  | [] => 0
  | e :: t' => (if P e then 1 else 0) + count P t'
  end.

Definition fs_accesses (w : World) : nat := count is_fs_access (trace w).
Definition compilations (w : World) : nat := count is_compilation (trace w).
Definition executions (w : World) : nat := count is_execution (trace w).

(** Further things to count: the programs the compilation backend handed
    back, and the additions to the table of included files. *)
Definition is_compiled (e : Event) : bool :=
  match e with EvCompileFile _ (Returns _) => true | _ => false end.
Definition is_registration (e : Event) : bool :=
  match e with EvHashAdd _ => true | _ => false end.

Definition programs_compiled (w : World) : nat := count is_compiled (trace w).
Definition registrations (w : World) : nat := count is_registration (trace w).

(** Whether a call of the compilation backend was given a handle whose
    [opened_path] is set. *)
Definition compiler_had_path (e : Event) : bool :=
  match e with
  | EvCompileFile h _ =>
      match opened_path h with Some _ => true | None => false end
  | _ => true
  end.

(** *** The engine calls, on a world *)

Definition zend_stream_open (path : string) (w : World)
  : option zend_file_handle * World :=
  let '(r, e) := zend_stream_open_raw path (ext w) in
  match r with
  | None =>
      (None,
       mk_world (included_files w) e (open_handles w) (next_handle w)
                (EvStreamOpen path None :: trace w))
  | Some opened =>
      let id := next_handle w in
      (Some (mk_handle id path opened),
       mk_world (included_files w) e (id :: open_handles w) (S id)
                (EvStreamOpen path (Some id) :: trace w))
  end.

Definition zend_destroy_file_handle (h : zend_file_handle) (w : World)
  : unit * World :=
  (tt,
   mk_world (included_files w) (ext w)
            (release (handle_id h) (open_handles w)) (next_handle w)
            (EvDestroyFileHandle (handle_id h) :: trace w)).

Definition zend_compile_file (h : zend_file_handle) (w : World)
  : Completion Fault Program * World :=
  let '(r, e) := zend_compile_file_raw h (ext w) in
  (r,
   mk_world (included_files w) e (open_handles w) (next_handle w)
            (EvCompileFile h r :: trace w)).

Definition stat (path : string) (w : World) : bool * World :=
  let '(found, e) := stat_raw path (ext w) in
  (found,
   mk_world (included_files w) e (open_handles w) (next_handle w)
            (EvStat path :: trace w)).

Definition zend_hash_exists (path : string) (w : World) : bool * World :=
  (bool_decide (path ∈ included_files w), w).

Definition zend_hash_add_empty_element (path : string) (w : World)
  : unit * World :=
  (tt,
   mk_world ({[path]} ∪ included_files w) (ext w) (open_handles w)
            (next_handle w) (EvHashAdd path :: trace w)).

Definition zend_execute (program : Program) (w : World)
  : Completion Fault Value * World :=
  let '(r, inc, e) := zend_execute_raw program (included_files w) (ext w) in
  (r,
   mk_world inc e (open_handles w) (next_handle w)
            (EvExecute program :: trace w)).

(** Between two calls the rest of the program and the outside world go
    on: the external state changes, the record of this class's calls does
    not. *)
Definition elapse (change : Ext → Ext) (w : World) : World :=
  mk_world (included_files w) (change (ext w)) (open_handles w)
           (next_handle w) (trace w).

(** The engine only ever adds to [EG(included_files)] while it runs a
    program: an assumption on the execution backend. *)
Definition registry_grows : Prop :=
  ∀ program inc e, inc ⊆ (zend_execute_raw program inc e).1.2.

(** *** Opcodes *)

(** Modelled from the spec: the class [Opcodes] (zend/opcodes.h) is not
    part of the sources at hand.  A compiled unit wraps the program the
    backend produced, is immutable, is valid iff the wrapped program is
    well formed, and its [execute] delegates to the execution backend
    without catching the fault the backend may raise. *)
Record Opcodes : Type := Opcodes_new { op_array : Program }.

Definition Opcodes_valid (o : Opcodes) : bool := program_valid (op_array o).

(** *** The class *)

Record File : Type := mk_file {
  _original : string;
  _path : option string;            (* null when resolution failed *)
  _opcodes : option Opcodes         (* std::unique_ptr<Opcodes> *)
}.

(** A method runs on [this] and on the world; both survive a fault. *)
Definition Method (A : Type) : Type :=
  File → World → Result Fault A * File * World.

Definition ret {A} (a : A) : Method A := λ f w, (Ok a, f, w).

Definition bind {A B} (m : Method A) (k : A → Method B) : Method B :=
  λ f w,
    match m f w with
    | (Ok a, f', w') => k a f' w'
    | (Thrown e, f', w') => (Thrown e, f', w')
    | (NullDeref, f', w') => (NullDeref, f', w')
    end.

Definition read {A} (field : File → A) : Method A := λ f w, (Ok (field f), f, w).

Definition reset_opcodes (o : Opcodes) : Method unit :=
  λ f w, (Ok tt, mk_file (_original f) (_path f) (Some o), w).

Definition deref (p : option Opcodes) : Method Opcodes :=
  match p with
  | Some o => ret o
  | None => λ f w, (NullDeref, f, w)
  end.

Definition extern {A} (c : World → A * World) : Method A :=
  λ f w, let '(a, w') := c w in (Ok a, f, w').

Definition raising {A} (c : World → Completion Fault A * World) : Method A :=
  λ f w, let '(r, w') := c w in (completed r, f, w').

Definition Opcodes_execute (o : Opcodes) : Method Value :=
  raising (zend_execute (op_array o)).

End ScriptFile.

Notation "'do' x <- m ; k" := (bind m (λ x, k))
  (at level 10, x name, m at level 100, k at level 200,
   format "'[v' 'do'  x  <-  m ; '/' k ']'").

Section Methods.
Context {Ext Program Value Fault : Type}.
Context {Eng : Engine Ext Program Value Fault}.

Abbreviation Method := (@Method Ext Program Fault).

(** [File::File(name, size)]: both preprocessor branches resolve the name
    with the engine and keep the result, null included. *)
Definition File_new (name : string)
    (w : World (Ext := Ext) (Program := Program) (Fault := Fault))
  : File (Program := Program) :=
  mk_file name (zend_resolve_path name (ext w)) None.

(** [bool File::compile()].  Both preprocessor branches open the stream
    at [_path] and leave on [FAILURE]; the [CompilerOptions] object only
    sets the options the backend runs under. *)
Definition File_compile : Method bool :=
  do path <- read _path;
  match path with
  | None => ret false                     (* if (!_path) return false; *)
  | Some path =>
    do opcodes <- read _opcodes;
    match opcodes with
    | Some o => ret (Opcodes_valid o)     (* if (_opcodes) return _opcodes->valid(); *)
    | None =>
      do opened <- extern (zend_stream_open path);
      match opened with
      | None => ret false                 (* == FAILURE) return false; *)
      | Some filehandle =>
        let filehandle := ensure_opened_path path filehandle in
        do program <- raising (zend_compile_file filehandle);
        do _ <- reset_opcodes (Opcodes_new program);
        do _ <- extern (zend_destroy_file_handle filehandle);
        do opcodes <- read _opcodes;
        do o <- deref opcodes;
        ret (Opcodes_valid o)             (* return _opcodes->valid(); *)
      end
    end
  end.

(** [bool File::exists()] *)
Definition File_exists : Method bool :=
  do path <- read _path;
  match path with
  | None => ret false                     (* if (!_path) return false; *)
  | Some path =>
    do opcodes <- read _opcodes;
    (* if (_opcodes && _opcodes->valid()) return true; *)
    if match opcodes with Some o => Opcodes_valid o | None => false end
    then ret true
    else extern (stat path)               (* return stat(...) == 0; *)
  end.

(** [bool File::valid()] *)
Definition File_valid : Method bool := File_compile.

(** [Value File::execute()] *)
Definition File_execute : Method Value :=
  do opcodes <- read _opcodes;
  match opcodes with
  | Some o => Opcodes_execute o           (* if (_opcodes) return _opcodes->execute(); *)
  | None =>
    do ok <- File_compile;
    if negb ok then ret null_value        (* if (!compile()) return nullptr; *)
    else
      do opcodes <- read _opcodes;
      do o <- deref opcodes;
      Opcodes_execute o                   (* return _opcodes->execute(); *)
  end.

(** [Value File::once()] *)
Definition File_once : Method Value :=
  do path <- read _path;
  match path with
  | None => ret null_value                (* if (!_path) return nullptr; *)
  | Some path =>
    do seen <- extern (zend_hash_exists path);
    if (seen : bool) then ret null_value  (* already included *)
    else
      do _ <- extern (zend_hash_add_empty_element path);
      File_execute                        (* return execute(); *)
  end.

(** *** Using an instance over time *)

(** The calls a holder of a [File] can make. *)
Inductive Call : Type :=
| call_exists
| call_valid
| call_compile
| call_execute
| call_once.

(** What a call leaves behind: [this] and the world, whatever it returned
    or raised. *)
Definition invoke (c : Call) (f : File) (w : World) : File * World :=
  match c with
  | call_exists => let '(_, f', w') := File_exists f w in (f', w')
  | call_valid => let '(_, f', w') := File_valid f w in (f', w')
  | call_compile => let '(_, f', w') := File_compile f w in (f', w')
  | call_execute => let '(_, f', w') := File_execute f w in (f', w')
  | call_once => let '(_, f', w') := File_once f w in (f', w')
  end.

(** The instance after a series of calls, each made in whatever world the
    rest of the program has produced by then. *)
Fixpoint replay (f : File) (calls : list (Call * World)) : File :=
  match calls with
  | [] => f
  | (c, w) :: calls' => replay (invoke c f w).1 calls'
  end.

(** *** The order of the engine calls *)

Abbreviation Event := (@Event Program Fault).

(** The engine calls one method call can make, the latest first: what
    [compile()] does after its two guards, what [execute()] adds to it, and
    what [once()] puts before it. *)
Inductive compile_calls : list Event → Prop :=
| cc_none : compile_calls []
| cc_open_failed p : compile_calls [EvStreamOpen p None]
| cc_compiled p h program :
    opened_path h ≠ None →
    compile_calls [EvDestroyFileHandle (handle_id h);
                   EvCompileFile h (Returns program);
                   EvStreamOpen p (Some (handle_id h))]
| cc_fault p h e :
    opened_path h ≠ None →
    compile_calls [EvCompileFile h (Raises e);
                   EvStreamOpen p (Some (handle_id h))].

Inductive execute_calls : list Event → Prop :=
| ec_memoized program : execute_calls [EvExecute program]
| ec_stopped calls : compile_calls calls → execute_calls calls
| ec_compiled_and_ran p h program :
    opened_path h ≠ None →
    execute_calls [EvExecute program;
                   EvDestroyFileHandle (handle_id h);
                   EvCompileFile h (Returns program);
                   EvStreamOpen p (Some (handle_id h))].

Inductive once_calls : list Event → Prop :=
| oc_skipped : once_calls []
| oc_loaded p calls :
    execute_calls calls → once_calls (calls ++ [EvHashAdd p]).

Definition exists_calls (calls : list Event) : Prop :=
  calls = [] ∨ ∃ p, calls = [EvStat p].

Definition calls_of (c : Call) : list Event → Prop :=
  match c with
  | call_exists => exists_calls
  | call_valid | call_compile => compile_calls
  | call_execute => execute_calls
  | call_once => once_calls
  end.

(** *** Calls in a row *)

(** Calls on one instance, each made in the world the previous one left,
    after whatever happened outside in between. *)
Fixpoint session (f : File) (w : World) (steps : list ((Ext → Ext) * Call))
  : File * World :=
  match steps with
  | [] => (f, w)
  | (change, c) :: steps' =>
      let '(f', w') := invoke c f (elapse change w) in session f' w' steps'
  end.

(** [once()] on one instance after the other. *)
Fixpoint once_each (files : list ((Ext → Ext) * File)) (w : World) : World :=
  match files with
  | [] => w
  | (change, f) :: files' =>
      once_each files' (File_once f (elapse change w)).2
  end.

End Methods.

(** ** A small engine to run the class on

    Scripts are straight-line: they load other files once, through this
    very class, and then return a number or raise.  A file on disk may be
    unreadable for a number of attempts, and may fail to compile. *)
Module Demo.

Inductive Script : Type :=
| Return (v : nat)
| Raise (msg : string)
| IncludeOnce (name : string) (k : Script).

Inductive Code : Type :=
| Compiles (s : Script)
| Malformed                    (* compiles to the null program *)
| Fatal (msg : string).        (* the compiler bails out *)

Record Source : Type := mk_source {
  unreadable_for : nat;        (* attempts to open that fail first *)
  reports_path : bool;         (* whether the stream sets opened_path *)
  code : Code
}.

Definition Disk : Type := list (string * Source).

Fixpoint lookup (path : string) (d : Disk) : option Source :=
  match d with
  | [] => None
  | (p, s) :: d' => if String.eqb p path then Some s else lookup path d'
  end.

Fixpoint attempt (path : string) (d : Disk) : Disk :=
  match d with
  | [] => []
  | (p, s) :: d' =>
      if String.eqb p path
      then (p, mk_source (pred (unreadable_for s)) (reports_path s) (code s)) :: d'
      else (p, s) :: attempt path d'
  end.

Definition resolve (name : string) (d : Disk) : option string :=
  let path := ("/scripts/" ++ name)%string in
  match lookup path d with
  | Some _ => Some path
  | None => None
  end.

Definition open (path : string) (d : Disk) : option (option string) * Disk :=
  match lookup path d with
  | None => (None, d)
  | Some s =>
      match unreadable_for s with
      | 0 => (Some (if reports_path s then Some path else None), d)
      | S _ => (None, attempt path d)
      end
  end.

Definition present (path : string) (d : Disk) : bool * Disk :=
  (match lookup path d with Some _ => true | None => false end, d).

Definition compile_source (h : zend_file_handle) (d : Disk)
  : Completion string (option Script) * Disk :=
  (match lookup (filename h) d with
   | Some s =>
       match code s with
       | Compiles s => Returns (Some s)
       | Malformed => Returns None
       | Fatal msg => Raises msg
       end
   | None => Returns None
   end, d).

Definition well_formed (p : option Script) : bool :=
  match p with Some _ => true | None => false end.

Definition engine_with
    (run : option Script → gset string → Disk →
           Completion string (option nat) * gset string * Disk)
  : Engine Disk (option Script) (option nat) string :=
  {| zend_resolve_path := resolve;
     zend_stream_open_raw := open;
     stat_raw := present;
     zend_compile_file_raw := compile_source;
     program_valid := well_formed;
     zend_execute_raw := run;
     null_value := None |}.

(** Runs a script; each nested load is a [File::once()] on a new [File],
    run by the engine [below]. *)
Fixpoint steps (below : Engine Disk (option Script) (option nat) string)
    (s : Script) (inc : gset string) (d : Disk)
  : Completion string (option nat) * gset string * Disk :=
  match s with
  | Return v => (Returns (Some v), inc, d)
  | Raise msg => (Raises msg, inc, d)
  | IncludeOnce name k =>
      let w := mk_world inc d [] 0 [] in
      match File_once (Eng := below) (File_new (Eng := below) name w) w with
      | (Ok _, _, w') => steps below k (included_files w') (ext w')
      | (Thrown e, _, w') => (Raises e, included_files w', ext w')
      | (NullDeref, _, w') =>
          (Raises "null dereference"%string, included_files w', ext w')
      end
  end.

(** The execution backend: nested loads run one level down, and at depth 0
    the engine refuses to run anything.  Running a null program returns
    null. *)
Fixpoint run (depth : nat) (p : option Script) (inc : gset string) (d : Disk)
  : Completion string (option nat) * gset string * Disk :=
  match depth with
  | 0 => (Raises "nesting too deep"%string, inc, d)
  | S depth' =>
      match p with
      | Some s => steps (engine_with (run depth')) s inc d
      | None => (Returns None, inc, d)
      end
  end.

Definition engine (depth : nat) : Engine Disk (option Script) (option nat) string :=
  engine_with (run depth).

(** Two levels of nesting are enough for the files below. *)
Definition php : Engine Disk (option Script) (option nat) string := engine 2.

(** /scripts/a.inc loads itself once and returns 7; b.inc does not
    compile; c.inc raises; d.inc becomes readable at the second attempt;
    the compiler bails out on e.inc. *)
Definition disk : Disk :=
  [ ("/scripts/a.inc"%string,
     mk_source 0 true (Compiles (IncludeOnce "a.inc" (Return 7))));
    ("/scripts/b.inc"%string, mk_source 0 false Malformed);
    ("/scripts/c.inc"%string, mk_source 0 true (Compiles (Raise "boom")));
    ("/scripts/d.inc"%string, mk_source 1 true (Compiles (Return 1)));
    ("/scripts/e.inc"%string, mk_source 0 true (Fatal "cannot redeclare")) ].

Definition fresh
  : World (Ext := Disk) (Program := option Script) (Fault := string) :=
  mk_world ∅ disk [] 0 [].

End Demo.


(** * Properties *)

Section Theory.
Context {Ext Program Value Fault : Type}.
Context {Eng : Engine Ext Program Value Fault}.

Implicit Types (f g : File (Program := Program)).
Implicit Types (w : World (Ext := Ext) (Program := Program) (Fault := Fault)).
Implicit Types (o : Opcodes (Program := Program)).
Implicit Types (p : string) (h : zend_file_handle).

(** Unfolds the plumbing of a method on an instance whose fields are known. *)
Ltac step_method :=
  unfold File_once, File_execute, File_valid, File_exists, File_compile,
    Opcodes_execute, bind, read, extern, raising, ret, deref, reset_opcodes,
    completed;
  cbn.

Ltac open_file f :=
  let orig := fresh "orig" in
  let path := fresh "path" in
  let ops := fresh "ops" in
  destruct f as [orig path ops]; cbn in *; simplify_eq.

(** ** The five ways through [File::compile] *)

Lemma compile_unresolved f w :
  _path f = None → File_compile f w = (Ok false, f, w).
Proof. intros Hp. open_file f. by step_method. Qed.

Lemma compile_memoized f w p o :
  _path f = Some p → _opcodes f = Some o →
  File_compile f w = (Ok (Opcodes_valid o), f, w).
Proof. intros Hp Ho. open_file f. by step_method. Qed.

Lemma compile_open_failure f w p w1 :
  _path f = Some p → _opcodes f = None →
  zend_stream_open p w = (None, w1) →
  File_compile f w = (Ok false, f, w1).
Proof.
  intros Hp Ho Hopen. open_file f. step_method. by rewrite Hopen.
Qed.

Lemma compile_backend f w p h w1 program w2 :
  _path f = Some p → _opcodes f = None →
  zend_stream_open p w = (Some h, w1) →
  zend_compile_file (ensure_opened_path p h) w1 = (Returns program, w2) →
  File_compile f w =
    (Ok (program_valid program),
     mk_file (_original f) (_path f) (Some (Opcodes_new program)),
     (zend_destroy_file_handle (ensure_opened_path p h) w2).2).
Proof.
  intros Hp Ho Hopen Hcomp. open_file f. step_method.
  rewrite Hopen. cbn. by rewrite Hcomp.
Qed.

Lemma compile_backend_fault f w p h w1 e w2 :
  _path f = Some p → _opcodes f = None →
  zend_stream_open p w = (Some h, w1) →
  zend_compile_file (ensure_opened_path p h) w1 = (Raises e, w2) →
  File_compile f w = (Thrown e, f, w2).
Proof.
  intros Hp Ho Hopen Hcomp. open_file f. step_method.
  rewrite Hopen. cbn. by rewrite Hcomp.
Qed.

Lemma compile_cases f w :
  (_path f = None ∧ File_compile f w = (Ok false, f, w)) ∨
  (∃ p o, _path f = Some p ∧ _opcodes f = Some o ∧
     File_compile f w = (Ok (Opcodes_valid o), f, w)) ∨
  (∃ p w1, _path f = Some p ∧ _opcodes f = None ∧
     zend_stream_open p w = (None, w1) ∧
     File_compile f w = (Ok false, f, w1)) ∨
  (∃ p h w1 program w2, _path f = Some p ∧ _opcodes f = None ∧
     zend_stream_open p w = (Some h, w1) ∧
     zend_compile_file (ensure_opened_path p h) w1 = (Returns program, w2) ∧
     File_compile f w =
       (Ok (program_valid program),
        mk_file (_original f) (_path f) (Some (Opcodes_new program)),
        (zend_destroy_file_handle (ensure_opened_path p h) w2).2)) ∨
  (∃ p h w1 e w2, _path f = Some p ∧ _opcodes f = None ∧
     zend_stream_open p w = (Some h, w1) ∧
     zend_compile_file (ensure_opened_path p h) w1 = (Raises e, w2) ∧
     File_compile f w = (Thrown e, f, w2)).
Proof.
  destruct (_path f) as [p|] eqn:Hp.
  2: { left. split; [done | by apply compile_unresolved]. }
  destruct (_opcodes f) as [o|] eqn:Ho.
  { right; left. exists p, o. eauto using compile_memoized. }
  destruct (zend_stream_open p w) as [[h|] w1] eqn:Hopen.
  2: { right; right; left. exists p, w1. eauto using compile_open_failure. }
  destruct (zend_compile_file (ensure_opened_path p h) w1)
    as [[program|e] w2] eqn:Hc.
  - right; right; right; left. exists p, h, w1, program, w2.
    rewrite <- Hp. repeat split; try done. by eapply compile_backend.
  - right; right; right; right. exists p, h, w1, e, w2.
    repeat split; try done. by eapply compile_backend_fault.
Qed.

(** Splits a goal along [compile_cases]. *)
Ltac by_compile_cases f w :=
  let p := fresh "p" in
  let o := fresh "o" in
  let h := fresh "h" in
  let w1 := fresh "w1" in
  let w2 := fresh "w2" in
  let program := fresh "program" in
  let e := fresh "e" in
  let Hp := fresh "Hp" in
  let Ho := fresh "Ho" in
  let Hopen := fresh "Hopen" in
  let Hback := fresh "Hback" in
  let Hc := fresh "Hc" in
  destruct (compile_cases f w) as
    [[Hp Hc]
    |[(p & o & Hp & Ho & Hc)
    |[(p & w1 & Hp & Ho & Hopen & Hc)
    |[(p & h & w1 & program & w2 & Hp & Ho & Hopen & Hback & Hc)
    |(p & h & w1 & e & w2 & Hp & Ho & Hopen & Hback & Hc)]]]].

(** ** What the engine calls do to a world *)

Lemma stream_open_failed p w w1 :
  zend_stream_open p w = (None, w1) →
  (zend_stream_open_raw p (ext w)).1 = None ∧
  included_files w1 = included_files w ∧
  open_handles w1 = open_handles w ∧
  trace w1 = EvStreamOpen p None :: trace w.
Proof.
  unfold zend_stream_open.
  destruct (zend_stream_open_raw p (ext w)) as [[opened|] e]; intros; by simplify_eq.
Qed.

Lemma stream_open_ok p w h w1 :
  zend_stream_open p w = (Some h, w1) →
  (zend_stream_open_raw p (ext w)).1 = Some (opened_path h) ∧
  filename h = p ∧
  included_files w1 = included_files w ∧
  open_handles w1 = handle_id h :: open_handles w ∧
  trace w1 = EvStreamOpen p (Some (handle_id h)) :: trace w.
Proof.
  unfold zend_stream_open.
  destruct (zend_stream_open_raw p (ext w)) as [[opened|] e]; intros; by simplify_eq.
Qed.

Lemma stream_open_raw_failed p w :
  (zend_stream_open_raw p (ext w)).1 = None →
  ∃ w1, zend_stream_open p w = (None, w1).
Proof.
  unfold zend_stream_open.
  destruct (zend_stream_open_raw p (ext w)) as [[opened|] e]; cbn; intros; by eauto.
Qed.

Lemma stream_open_raw_ok p w opened :
  (zend_stream_open_raw p (ext w)).1 = Some opened →
  ∃ h w1, zend_stream_open p w = (Some h, w1).
Proof.
  unfold zend_stream_open.
  destruct (zend_stream_open_raw p (ext w)) as [[opened'|] e]; cbn; intros; by eauto.
Qed.

Lemma compile_file_effect h w r w2 :
  zend_compile_file h w = (r, w2) →
  included_files w2 = included_files w ∧
  open_handles w2 = open_handles w ∧
  trace w2 = EvCompileFile h r :: trace w.
Proof.
  unfold zend_compile_file.
  destruct (zend_compile_file_raw h (ext w)) as [r' e]; intros; by simplify_eq.
Qed.

Lemma stat_effect p w :
  included_files (stat p w).2 = included_files w ∧
  open_handles (stat p w).2 = open_handles w ∧
  trace (stat p w).2 = EvStat p :: trace w.
Proof. unfold stat. by destruct (stat_raw p (ext w)). Qed.

Lemma execute_effect program w :
  open_handles (zend_execute program w).2 = open_handles w ∧
  trace (zend_execute program w).2 = EvExecute program :: trace w.
Proof.
  unfold zend_execute.
  by destruct (zend_execute_raw program (included_files w) (ext w)) as [[r inc] e].
Qed.

Lemma execute_registry program w :
  registry_grows →
  included_files w ⊆ included_files (zend_execute program w).2.
Proof.
  intros Hgrow. unfold zend_execute.
  specialize (Hgrow program (included_files w) (ext w)).
  by destruct (zend_execute_raw program (included_files w) (ext w)) as [[r inc] e].
Qed.

Lemma release_head id l : release id (id :: l) = l.
Proof. cbn. by rewrite Nat.eqb_refl. Qed.

Lemma ensure_opened_path_id p h :
  handle_id (ensure_opened_path p h) = handle_id h.
Proof. unfold ensure_opened_path. by destruct (opened_path h). Qed.

Lemma ensure_opened_path_set p h :
  opened_path (ensure_opened_path p h) ≠ None.
Proof. unfold ensure_opened_path. by destruct (opened_path h) eqn:E; cbn; rewrite ?E. Qed.

(** ** Compilation *)

Lemma compile_keeps_memo f w o :
  _opcodes f = Some o →
  File_compile f w = (Ok (Opcodes_valid o), f, w) ∨
  (_path f = None ∧ File_compile f w = (Ok false, f, w)).
Proof.
  intros Ho. destruct (_path f) as [p|] eqn:Hp.
  - left. by eapply compile_memoized.
  - right. split; [done | by apply compile_unresolved].
Qed.

(** Compilation neither executes nor touches the table of included
    files. *)
Lemma compile_frame f w :
  included_files (File_compile f w).2 = included_files w ∧
  executions (File_compile f w).2 = executions w.
Proof.
  by_compile_cases f w; rewrite Hc; cbn; try done.
  - apply stream_open_failed in Hopen as (_ & -> & _ & Ht).
    unfold executions. by rewrite Ht.
  - apply stream_open_ok in Hopen as (_ & _ & <- & _ & Ht).
    apply compile_file_effect in Hback as (<- & _ & Hback).
    unfold executions. cbn. by rewrite Hback, Ht.
  - apply stream_open_ok in Hopen as (_ & _ & <- & _ & Ht).
    apply compile_file_effect in Hback as (<- & _ & Hback).
    unfold executions. by rewrite Hback, Ht.
Qed.

Lemma compile_true_memoizes f w f1 w1 :
  File_compile f w = (Ok true, f1, w1) →
  ∃ o, _opcodes f1 = Some o ∧ Opcodes_valid o = true.
Proof.
  by_compile_cases f w; rewrite Hc; intros; simplify_eq; eauto.
Qed.

(** C9, amended: whenever [File::compile] opens the file handle and the
    compilation backend hands back a program, valid or not, the handle is
    destroyed right after and before the method returns; whenever the
    method returns, the open handles are those from before the call; and
    when the backend leaves by a fault instead, the method is left by that
    fault, the destroy call is skipped and the handle stays open. *)
Theorem compile_releases_file_handle f w :
  (∀ b f1 w1, File_compile f w = (Ok b, f1, w1) →
     open_handles w1 = open_handles w) ∧
  (∀ p h w1 program w2,
     _path f = Some p → _opcodes f = None →
     zend_stream_open p w = (Some h, w1) →
     zend_compile_file (ensure_opened_path p h) w1 = (Returns program, w2) →
     open_handles w1 = handle_id h :: open_handles w ∧
     (File_compile f w).1.1 = Ok (program_valid program) ∧
     trace (File_compile f w).2 =
       EvDestroyFileHandle (handle_id h)
       :: EvCompileFile (ensure_opened_path p h) (Returns program)
       :: EvStreamOpen p (Some (handle_id h)) :: trace w ∧
     open_handles (File_compile f w).2 = open_handles w) ∧
  (∀ p h w1 e w2,
     _path f = Some p → _opcodes f = None →
     zend_stream_open p w = (Some h, w1) →
     zend_compile_file (ensure_opened_path p h) w1 = (Raises e, w2) →
     File_compile f w = (Thrown e, f, w2) ∧
     trace w2 =
       EvCompileFile (ensure_opened_path p h) (Raises e)
       :: EvStreamOpen p (Some (handle_id h)) :: trace w ∧
     open_handles w2 = handle_id h :: open_handles w).
Proof.
  split; [|split].
  - intros b f1 w1. by_compile_cases f w; rewrite Hc; intros; simplify_eq; try done.
    + by apply stream_open_failed in Hopen as (_ & _ & -> & _).
    + apply stream_open_ok in Hopen as (_ & _ & _ & Hh & _).
      apply compile_file_effect in Hback as (_ & Hh2 & _).
      cbn. by rewrite Hh2, Hh, ensure_opened_path_id, release_head.
  - intros p h w1 program w2 Hp Ho Hopen Hback.
    rewrite (compile_backend f w p h w1 program w2) by done.
    apply stream_open_ok in Hopen as (_ & _ & _ & Hh & Ht).
    apply compile_file_effect in Hback as (_ & Hh2 & Hback).
    cbn. rewrite Hback, Ht, Hh2, Hh, ensure_opened_path_id, release_head.
    done.
  - intros p h w1 e w2 Hp Ho Hopen Hback.
    split; [by eapply compile_backend_fault|].
    apply stream_open_ok in Hopen as (_ & _ & _ & Hh & Ht).
    apply compile_file_effect in Hback as (_ & Hh2 & Hback).
    by rewrite Hback, Ht, Hh2, Hh.
Qed.

(** The destroy call is skipped when the compilation backend leaves by a
    fault: the method does not return, and the handle stays open. *)
Lemma compile_fault_keeps_handle f w p h w1 e w2 :
  _path f = Some p → _opcodes f = None →
  zend_stream_open p w = (Some h, w1) →
  zend_compile_file (ensure_opened_path p h) w1 = (Raises e, w2) →
  File_compile f w = (Thrown e, f, w2) ∧
  open_handles w2 = handle_id h :: open_handles w.
Proof.
  intros Hp Ho Hopen Hback.
  split; [by eapply compile_backend_fault|].
  apply stream_open_ok in Hopen as (_ & _ & _ & Hh & _).
  apply compile_file_effect in Hback as (_ & Hh2 & _). congruence.
Qed.

(** C6: when the path is resolved, nothing is memoized and the stream
    cannot be opened, [File::compile] returns false and leaves the
    instance as it was, without reaching the compilation backend; a later
    call on the instance opens the stream again and, when that succeeds
    and the backend hands back a program, memoizes it and returns its
    validity. *)
Theorem open_failure_is_retryable f w p :
  _path f = Some p → _opcodes f = None →
  (zend_stream_open_raw p (ext w)).1 = None →
  ∃ w1,
    File_compile f w = (Ok false, f, w1) ∧
    compilations w1 = compilations w ∧
    trace w1 = EvStreamOpen p None :: trace w ∧
    ∀ w',
      (∃ r later,
         trace (File_compile f w').2 = later ++ EvStreamOpen p r :: trace w') ∧
      (∀ h w1' program w2,
         zend_stream_open p w' = (Some h, w1') →
         zend_compile_file (ensure_opened_path p h) w1' = (Returns program, w2) →
         (File_compile f w').1 =
           (Ok (program_valid program),
            mk_file (_original f) (Some p) (Some (Opcodes_new program))) ∧
         compilations (File_compile f w').2 = S (compilations w')).
Proof.
  intros Hp Ho Hraw.
  destruct (stream_open_raw_failed p w Hraw) as [w1 Hopen].
  exists w1. rewrite (compile_open_failure f w p w1) by done.
  apply stream_open_failed in Hopen as (_ & _ & _ & Ht).
  split; [done|]. split; [by unfold compilations; rewrite Ht|].
  split; [done|]. intros w'. split.
  - destruct (zend_stream_open p w') as [[h|] w1'] eqn:Hopen'.
    + apply stream_open_ok in Hopen' as Heff. destruct Heff as (_ & _ & _ & _ & Ht').
      destruct (zend_compile_file (ensure_opened_path p h) w1')
        as [[program|e] w2] eqn:Hback.
      * rewrite (compile_backend f w' p h w1' program w2) by done.
        apply compile_file_effect in Hback as (_ & _ & Hback).
        eexists _, [_; _]. cbn. by rewrite Hback, Ht'.
      * rewrite (compile_backend_fault f w' p h w1' e w2) by done.
        apply compile_file_effect in Hback as (_ & _ & Hback).
        eexists _, [_]. cbn. by rewrite Hback, Ht'.
    + rewrite (compile_open_failure f w' p w1') by done.
      apply stream_open_failed in Hopen' as (_ & _ & _ & Ht').
      eexists _, []. cbn. by rewrite Ht'.
  - intros h w1' program w2 Hopen' Hback.
    rewrite (compile_backend f w' p h w1' program w2) by done.
    apply stream_open_ok in Hopen' as (_ & _ & _ & _ & Ht').
    apply compile_file_effect in Hback as (_ & _ & Hback).
    cbn. rewrite Hp. split; [done|].
    unfold compilations. cbn. by rewrite Hback, Ht'.
Qed.

(** ** Execution *)

Lemma compile_never_null f w : (File_compile f w).1.1 ≠ NullDeref.
Proof. by_compile_cases f w; by rewrite Hc. Qed.

Lemma Opcodes_execute_unfold o f w :
  Opcodes_execute o f w =
    (completed (zend_execute (op_array o) w).1, f,
     (zend_execute (op_array o) w).2).
Proof.
  unfold Opcodes_execute, raising.
  by destruct (zend_execute (op_array o) w).
Qed.

Lemma Opcodes_execute_this o f w : (Opcodes_execute o f w).1.2 = f.
Proof.
  unfold Opcodes_execute, raising.
  by destruct (zend_execute (op_array o) w).
Qed.

Lemma Opcodes_execute_trace o f w :
  trace (Opcodes_execute o f w).2 = EvExecute (op_array o) :: trace w.
Proof.
  unfold Opcodes_execute, raising.
  pose proof (execute_effect (op_array o) w) as [_ Ht].
  by destruct (zend_execute (op_array o) w).
Qed.

Lemma Opcodes_execute_handles o f w :
  open_handles (Opcodes_execute o f w).2 = open_handles w.
Proof.
  unfold Opcodes_execute, raising.
  pose proof (execute_effect (op_array o) w) as [Hh _].
  by destruct (zend_execute (op_array o) w).
Qed.

Lemma Opcodes_execute_registry o f w :
  registry_grows →
  included_files w ⊆ included_files (Opcodes_execute o f w).2.
Proof.
  intros Hgrow. unfold Opcodes_execute, raising.
  pose proof (execute_registry (op_array o) w Hgrow).
  by destruct (zend_execute (op_array o) w).
Qed.

Lemma execute_memoized f w o :
  _opcodes f = Some o → File_execute f w = Opcodes_execute o f w.
Proof. intros Ho. open_file f. by step_method. Qed.

Lemma execute_compile_false f w f1 w1 :
  _opcodes f = None → File_compile f w = (Ok false, f1, w1) →
  File_execute f w = (Ok null_value, f1, w1).
Proof.
  intros Ho Hc. unfold File_execute, bind, read. rewrite Ho, Hc. done.
Qed.

Lemma execute_compile_fault f w e f1 w1 :
  _opcodes f = None → File_compile f w = (Thrown e, f1, w1) →
  File_execute f w = (Thrown e, f1, w1).
Proof.
  intros Ho Hc. unfold File_execute, bind, read. rewrite Ho, Hc. done.
Qed.

Lemma execute_compile_true f w f1 w1 :
  _opcodes f = None → File_compile f w = (Ok true, f1, w1) →
  ∃ o, _opcodes f1 = Some o ∧ Opcodes_valid o = true ∧
       File_execute f w = Opcodes_execute o f1 w1.
Proof.
  intros Ho Hc. destruct (compile_true_memoizes f w f1 w1 Hc) as (o & Ho1 & Hv).
  exists o. split; [done|]. split; [done|].
  unfold File_execute, bind, read. rewrite Ho, Hc. cbn. by rewrite Ho1.
Qed.

(** C5: with a memoized unit, [File::execute] hands that unit to the
    execution backend at once and returns what it returns, valid or not;
    without one it calls [compile()], returns the null value when that
    returns false, and otherwise executes the unit [compile()] has just
    memoized. *)
Theorem execute_semantics f w :
  (∀ o, _opcodes f = Some o →
     File_execute f w =
       (completed (zend_execute (op_array o) w).1, f,
        (zend_execute (op_array o) w).2) ∧
     trace (File_execute f w).2 = EvExecute (op_array o) :: trace w) ∧
  (∀ f1 w1, _opcodes f = None → File_compile f w = (Ok false, f1, w1) →
     File_execute f w = (Ok null_value, f1, w1)) ∧
  (∀ f1 w1, _opcodes f = None → File_compile f w = (Ok true, f1, w1) →
     ∃ o, _opcodes f1 = Some o ∧
       File_execute f w =
         (completed (zend_execute (op_array o) w1).1, f1,
          (zend_execute (op_array o) w1).2) ∧
       trace (File_execute f w).2 = EvExecute (op_array o) :: trace w1).
Proof.
  split; [|split].
  - intros o Ho. rewrite (execute_memoized f w o Ho).
    split; [apply Opcodes_execute_unfold | apply Opcodes_execute_trace].
  - intros f1 w1. apply execute_compile_false.
  - intros f1 w1 Ho Hc.
    destruct (execute_compile_true f w f1 w1 Ho Hc) as (o & Ho1 & _ & ->).
    exists o. split; [done|].
    split; [apply Opcodes_execute_unfold | apply Opcodes_execute_trace].
Qed.

(** No method dereferences an empty [_opcodes]. *)
Lemma execute_never_null f w : (File_execute f w).1.1 ≠ NullDeref.
Proof.
  destruct (_opcodes f) as [o|] eqn:Ho.
  { rewrite (execute_memoized f w o Ho), Opcodes_execute_unfold. cbn.
    by destruct (zend_execute (op_array o) w).1. }
  destruct (File_compile f w) as [[r f1] w1] eqn:Hc.
  pose proof (compile_never_null f w) as Hnull. rewrite Hc in Hnull.
  destruct r as [[|]|e|]; [| | |done].
  - destruct (execute_compile_true f w f1 w1 Ho Hc) as (o & _ & _ & ->).
    rewrite Opcodes_execute_unfold. cbn.
    by destruct (zend_execute (op_array o) w1).1.
  - by rewrite (execute_compile_false f w f1 w1).
  - by rewrite (execute_compile_fault f w e f1 w1).
Qed.

(** ** Existence *)

Lemma exists_unresolved f w :
  _path f = None → File_exists f w = (Ok false, f, w).
Proof. intros Hp. open_file f. by step_method. Qed.

Lemma exists_fast_path f w p o :
  _path f = Some p → _opcodes f = Some o → Opcodes_valid o = true →
  File_exists f w = (Ok true, f, w).
Proof. intros Hp Ho Hv. open_file f. step_method. by rewrite Hv. Qed.

Lemma exists_stat f w p :
  _path f = Some p →
  (∀ o, _opcodes f = Some o → Opcodes_valid o = false) →
  File_exists f w = (Ok (stat p w).1, f, (stat p w).2).
Proof.
  intros Hp Hv. open_file f. step_method. destruct ops as [o|].
  - rewrite (Hv o) by done. by destruct (stat p w).
  - by destruct (stat p w).
Qed.

Lemma exists_cases f w :
  File_exists f w = (Ok false, f, w) ∨ File_exists f w = (Ok true, f, w) ∨
  ∃ p, _path f = Some p ∧ File_exists f w = (Ok (stat p w).1, f, (stat p w).2).
Proof.
  destruct (_path f) as [p|] eqn:Hp.
  2: { left. by apply exists_unresolved. }
  destruct (_opcodes f) as [o|] eqn:Ho.
  - destruct (Opcodes_valid o) eqn:Hv.
    + right; left. by eapply exists_fast_path.
    + right; right. exists p. split; [done|]. apply exists_stat; [done|].
      intros o' ?. by simplify_eq.
  - right; right. exists p. split; [done|].
    apply exists_stat; [done | intros; congruence].
Qed.

(** C7: [File::exists] returns false when the path is null; returns true
    with no call at all, whatever the filesystem has become, when a valid
    unit is memoized; and otherwise returns what [stat] on the path says.
    It never changes the instance, compiles, executes or touches the
    table of included files. *)
Theorem exists_behaviour f w :
  (_path f = None → File_exists f w = (Ok false, f, w)) ∧
  (∀ p o, _path f = Some p → _opcodes f = Some o → Opcodes_valid o = true →
     File_exists f w = (Ok true, f, w)) ∧
  (∀ p, _path f = Some p →
     (∀ o, _opcodes f = Some o → Opcodes_valid o = false) →
     File_exists f w = (Ok (stat p w).1, f, (stat p w).2) ∧
     trace (stat p w).2 = EvStat p :: trace w) ∧
  ((File_exists f w).1.2 = f ∧
   compilations (File_exists f w).2 = compilations w ∧
   executions (File_exists f w).2 = executions w ∧
   included_files (File_exists f w).2 = included_files w ∧
   open_handles (File_exists f w).2 = open_handles w).
Proof.
  split; [apply exists_unresolved|].
  split; [apply exists_fast_path|].
  split.
  - intros p Hp Hv. split; [by apply exists_stat|]. apply stat_effect.
  - destruct (exists_cases f w) as [->|[->|(p & _ & ->)]]; cbn; try done.
    destruct (stat_effect p w) as (-> & -> & Ht).
    unfold compilations, executions. by rewrite Ht.
Qed.

(** ** Loading once *)

Lemma once_unresolved f w :
  _path f = None → File_once f w = (Ok null_value, f, w).
Proof. intros Hp. open_file f. by step_method. Qed.

Lemma once_seen f w p :
  _path f = Some p → p ∈ included_files w →
  File_once f w = (Ok null_value, f, w).
Proof.
  intros Hp Hin. unfold File_once, bind, read, extern, zend_hash_exists.
  rewrite Hp. cbn. by rewrite bool_decide_eq_true_2.
Qed.

Lemma once_fresh f w p :
  _path f = Some p → p ∉ included_files w →
  File_once f w = File_execute f (zend_hash_add_empty_element p w).2.
Proof.
  intros Hp Hin. unfold File_once, bind, read, extern, zend_hash_exists.
  rewrite Hp. cbn. by rewrite bool_decide_eq_false_2.
Qed.

(** [File::execute] either stops after a compilation that returned false
    or was left by a fault, or is one call of the execution backend on the
    memoized unit; up to that call the table of included files and the
    number of executions are those at entry. *)
Lemma execute_shape f w :
  ∃ f1 w1,
    included_files w1 = included_files w ∧
    executions w1 = executions w ∧
    (File_execute f w = (Ok null_value, f1, w1) ∨
     (∃ e, File_execute f w = (Thrown e, f1, w1)) ∨
     ∃ o, _opcodes f1 = Some o ∧ File_execute f w = Opcodes_execute o f1 w1).
Proof.
  destruct (_opcodes f) as [o|] eqn:Ho.
  { exists f, w. repeat split; try done. right; right. exists o.
    split; [done | by apply execute_memoized]. }
  destruct (File_compile f w) as [[r f1] w1] eqn:Hc.
  pose proof (compile_frame f w) as [Hinc Hex].
  pose proof (compile_never_null f w) as Hnull.
  rewrite Hc in Hinc, Hex, Hnull. cbn in Hinc, Hex, Hnull.
  exists f1, w1. split; [done|]. split; [done|].
  destruct r as [[|]|e|]; [| | |done].
  - right; right.
    destruct (execute_compile_true f w f1 w1 Ho Hc) as (o & ? & _ & ?). eauto.
  - left. by apply execute_compile_false.
  - right; left. exists e. by apply execute_compile_fault.
Qed.

Lemma execute_executions f w :
  executions (File_execute f w).2 ≤ S (executions w).
Proof.
  destruct (execute_shape f w)
    as (f1 & w1 & _ & Hex & [->|[[e ->]|(o & _ & ->)]]); cbn; try lia.
  unfold executions in *. rewrite Opcodes_execute_trace. cbn. lia.
Qed.

Lemma execute_registry_grows f w :
  registry_grows →
  included_files w ⊆ included_files (File_execute f w).2.
Proof.
  intros Hgrow.
  destruct (execute_shape f w)
    as (f1 & w1 & Hinc & _ & [->|[[e ->]|(o & _ & ->)]]); cbn;
    try by rewrite Hinc.
  rewrite <- Hinc. by apply Opcodes_execute_registry.
Qed.

Lemma once_registry_grows f w :
  registry_grows →
  included_files w ⊆ included_files (File_once f w).2.
Proof.
  intros Hgrow. destruct (_path f) as [p|] eqn:Hp.
  2: { by rewrite once_unresolved. }
  destruct (decide (p ∈ included_files w)) as [Hin|Hin].
  { by rewrite (once_seen f w p). }
  rewrite (once_fresh f w p) by done.
  etrans; [|by apply execute_registry_grows]. cbn. set_solver.
Qed.

Lemma once_executions f w :
  executions (File_once f w).2 ≤ S (executions w).
Proof.
  destruct (_path f) as [p|] eqn:Hp.
  2: { rewrite once_unresolved by done. cbn. lia. }
  destruct (decide (p ∈ included_files w)) as [Hin|Hin].
  { rewrite (once_seen f w p) by done. cbn. lia. }
  rewrite (once_fresh f w p) by done.
  etrans; [apply execute_executions|]. done.
Qed.

(** C1: a [once()] on an instance whose path is already in the table of
    included files returns the null value and calls nothing; hence of two
    [once()] calls on instances with the same path, made one after the
    other from any table (a fresh one in particular), the second returns
    the null value and leaves the world as it found it, and the two
    together call the execution backend at most once. *)
Theorem once_only f g w p :
  registry_grows →
  _path f = Some p → _path g = Some p →
  (∀ g' w', _path g' = Some p → p ∈ included_files w' →
     File_once g' w' = (Ok null_value, g', w')) ∧
  p ∈ included_files (File_once f w).2 ∧
  File_once g (File_once f w).2 = (Ok null_value, g, (File_once f w).2) ∧
  executions (File_once g (File_once f w).2).2 ≤ S (executions w).
Proof.
  intros Hgrow Hf Hg.
  assert (p ∈ included_files (File_once f w).2) as Hin.
  { destruct (decide (p ∈ included_files w)) as [Hin|Hin].
    - by rewrite (once_seen f w p).
    - rewrite (once_fresh f w p) by done.
      eapply execute_registry_grows; [done|]. cbn. set_solver. }
  split; [intros g' w'; apply once_seen|].
  split; [done|].
  rewrite (once_seen g _ p) by done. split; [done|].
  apply once_executions.
Qed.

(** C2: when the path is resolved and not yet in the table of included
    files, [File::once] adds it first and then is [execute()] in the world
    so obtained: the call ends with no execution (compilation returned
    false or was left by a fault) or in one call of the execution backend,
    made with the path already registered; the path is registered when
    [once()] is over, however it ends; and any [once()] for that path made
    from then on — the script loading itself included — returns the null
    value without doing anything. *)
Theorem once_registers_before_executing f w p :
  registry_grows →
  _path f = Some p → p ∉ included_files w →
  let w0 := (zend_hash_add_empty_element p w).2 in
  File_once f w = File_execute f w0 ∧
  included_files w0 = {[p]} ∪ included_files w ∧
  trace w0 = EvHashAdd p :: trace w ∧
  (∃ f1 w1,
     p ∈ included_files w1 ∧
     (File_once f w = (Ok null_value, f1, w1) ∨
      (∃ e, File_once f w = (Thrown e, f1, w1)) ∨
      ∃ o, _opcodes f1 = Some o ∧ File_once f w = Opcodes_execute o f1 w1)) ∧
  p ∈ included_files (File_once f w).2 ∧
  (∀ g w', _path g = Some p → included_files w0 ⊆ included_files w' →
     File_once g w' = (Ok null_value, g, w')).
Proof.
  intros Hgrow Hp Hin w0.
  assert (p ∈ included_files w0) as Hin0 by (cbn; set_solver).
  rewrite (once_fresh f w p) by done. fold w0.
  split; [done|]. split; [done|]. split; [done|]. split; [|split].
  - destruct (execute_shape f w0) as (f1 & w1 & Hinc & _ & Hshape).
    exists f1, w1. by rewrite Hinc.
  - by eapply execute_registry_grows.
  - intros g w' Hg Hsub. apply (once_seen g w' p); [done|]. by apply Hsub.
Qed.

(** X2: no method ever dereferences an empty [_opcodes]: each
    [_opcodes->...] in the class is reached only with a unit in place,
    whatever state the instance is in. *)
Lemma no_null_dereference f w :
  (File_exists f w).1.1 ≠ NullDeref ∧
  (File_valid f w).1.1 ≠ NullDeref ∧
  (File_compile f w).1.1 ≠ NullDeref ∧
  (File_execute f w).1.1 ≠ NullDeref ∧
  (File_once f w).1.1 ≠ NullDeref.
Proof.
  split; [|split; [|split; [|split]]].
  - by destruct (exists_cases f w) as [->|[->|(p & _ & ->)]].
  - apply compile_never_null.
  - apply compile_never_null.
  - apply execute_never_null.
  - destruct (_path f) as [p|] eqn:Hp.
    2: { by rewrite once_unresolved. }
    destruct (decide (p ∈ included_files w)) as [Hin|Hin].
    { by rewrite (once_seen f w p). }
    rewrite (once_fresh f w p) by done. apply execute_never_null.
Qed.

(** ** An instance over time *)

Lemma invoke_unresolved c f w :
  _path f = None → _opcodes f = None → invoke c f w = (f, w).
Proof.
  intros Hp Ho. destruct c; unfold invoke.
  - by rewrite exists_unresolved.
  - unfold File_valid. by rewrite compile_unresolved.
  - by rewrite compile_unresolved.
  - rewrite (execute_compile_false f w f w);
      [done | done | by apply compile_unresolved].
  - by rewrite once_unresolved.
Qed.

Lemma replay_unresolved f calls :
  _path f = None → _opcodes f = None → replay f calls = f.
Proof.
  intros Hp Ho. induction calls as [|[c w] calls IH]; [done|].
  cbn. by rewrite invoke_unresolved.
Qed.

Lemma invoke_memoized c f w o :
  _opcodes f = Some o →
  (invoke c f w).1 = f ∧ compilations (invoke c f w).2 = compilations w.
Proof.
  intros Ho. destruct c; unfold invoke.
  - destruct (exists_cases f w) as [->|[->|(p & _ & ->)]]; cbn; try done.
    destruct (stat_effect p w) as (_ & _ & Ht).
    unfold compilations. by rewrite Ht.
  - unfold File_valid.
    by destruct (compile_keeps_memo f w o Ho) as [->|[_ ->]].
  - by destruct (compile_keeps_memo f w o Ho) as [->|[_ ->]].
  - rewrite (execute_memoized f w o Ho).
    pose proof (Opcodes_execute_this o f w) as Hf.
    pose proof (Opcodes_execute_trace o f w) as Ht.
    destruct (Opcodes_execute o f w) as [[r f'] w']. cbn in *.
    unfold compilations. by rewrite Ht.
  - destruct (_path f) as [p|] eqn:Hp.
    2: { by rewrite once_unresolved. }
    destruct (decide (p ∈ included_files w)) as [Hin|Hin].
    { by rewrite (once_seen f w p). }
    rewrite (once_fresh f w p), (execute_memoized f _ o Ho) by done.
    pose proof (Opcodes_execute_this o f (zend_hash_add_empty_element p w).2) as Hf.
    pose proof (Opcodes_execute_trace o f (zend_hash_add_empty_element p w).2) as Ht.
    destruct (Opcodes_execute o f _) as [[r f'] w']. cbn in *.
    unfold compilations. by rewrite Ht.
Qed.

Lemma replay_memoized f calls o :
  _opcodes f = Some o → replay f calls = f.
Proof.
  intros Ho. induction calls as [|[c w] calls IH]; [done|].
  cbn. destruct (invoke_memoized c f w o Ho) as [-> _]. done.
Qed.

(** The name and the resolved path are fixed at construction. *)
Lemma compile_keeps_path f w :
  _original (File_compile f w).1.2 = _original f ∧
  _path (File_compile f w).1.2 = _path f.
Proof. by_compile_cases f w; by rewrite Hc. Qed.

Lemma execute_keeps_path f w :
  _original (File_execute f w).1.2 = _original f ∧
  _path (File_execute f w).1.2 = _path f.
Proof.
  destruct (_opcodes f) as [o|] eqn:Ho.
  { by rewrite (execute_memoized f w o Ho), Opcodes_execute_this. }
  pose proof (compile_keeps_path f w) as Hkeep.
  pose proof (compile_never_null f w) as Hnull.
  destruct (File_compile f w) as [[r f1] w1] eqn:Hc.
  destruct r as [[|]|e|]; [| | |done].
  - destruct (execute_compile_true f w f1 w1 Ho Hc) as (o & _ & _ & ->).
    by rewrite Opcodes_execute_this.
  - by rewrite (execute_compile_false f w f1 w1).
  - by rewrite (execute_compile_fault f w e f1 w1).
Qed.

Lemma invoke_keeps_path c f w :
  _original (invoke c f w).1 = _original f ∧ _path (invoke c f w).1 = _path f.
Proof.
  destruct c; unfold invoke.
  - by destruct (exists_cases f w) as [->|[->|(p & _ & ->)]].
  - pose proof (compile_keeps_path f w). unfold File_valid.
    by destruct (File_compile f w) as [[r f1] w1].
  - pose proof (compile_keeps_path f w).
    by destruct (File_compile f w) as [[r f1] w1].
  - pose proof (execute_keeps_path f w).
    by destruct (File_execute f w) as [[r f1] w1].
  - destruct (_path f) as [p|] eqn:Hp.
    2: { by rewrite once_unresolved. }
    destruct (decide (p ∈ included_files w)) as [Hin|Hin].
    { by rewrite (once_seen f w p). }
    rewrite (once_fresh f w p) by done.
    pose proof (execute_keeps_path f (zend_hash_add_empty_element p w).2) as Hk.
    rewrite Hp in Hk.
    by destruct (File_execute f _) as [[r f1] w1].
Qed.

Lemma replay_keeps_path f calls :
  _original (replay f calls) = _original f ∧ _path (replay f calls) = _path f.
Proof.
  revert f. induction calls as [|[c w] calls IH]; intros f; [done|].
  cbn. destruct (IH (invoke c f w).1) as [-> ->]. apply invoke_keeps_path.
Qed.

(** A unit is only ever memoized for a resolved path. *)
Lemma memo_implies_resolved name w0 calls :
  let f := replay (File_new name w0) calls in
  is_Some (_opcodes f) → is_Some (_path f).
Proof.
  intros f Hmemo. destruct (_path f) as [p|] eqn:Hp; [by eexists|].
  pose proof (replay_keeps_path (File_new name w0) calls) as [_ Hpath].
  fold f in Hpath. rewrite Hp in Hpath.
  unfold f in Hmemo. rewrite replay_unresolved in Hmemo; [|done..].
  by destruct Hmemo.
Qed.

(** C3: once a [compile()] call has returned V with the validity fixed —
    a unit is in [_opcodes] when the call is over, or the path is null,
    which never changes — every later [compile()] on the instance,
    whatever other calls are made on it in between and whatever has become
    of the filesystem, returns V and calls nothing: no open, no [stat], no
    compilation.  (A call that failed to open the stream has fixed nothing;
    what follows it is [open_failure_is_retryable].) *)
Theorem compile_idempotent_once_settled f w V f1 w1 :
  File_compile f w = (Ok V, f1, w1) →
  _path f = None ∨ _opcodes f1 ≠ None →
  ∀ calls w',
    let f' := replay f1 calls in
    f' = f1 ∧
    File_compile f' w' = (Ok V, f', w') ∧
    fs_accesses (File_compile f' w').2 = fs_accesses w' ∧
    compilations (File_compile f' w').2 = compilations w'.
Proof.
  intros Hc Hsettled calls w' f'. unfold f'.
  assert (replay f1 calls = f1 ∧ File_compile f1 w' = (Ok V, f1, w'))
    as [Hre Hc']; [|by rewrite Hre, Hc'].
  by_compile_cases f w; rewrite Hc0 in Hc; simplify_eq.
  - split; [|by apply compile_unresolved].
    destruct (_opcodes f1) as [o|] eqn:Ho.
    + by eapply replay_memoized.
    + by apply replay_unresolved.
  - split; [by eapply replay_memoized | by eapply compile_memoized].
  - destruct Hsettled; congruence.
  - split; [by eapply replay_memoized|].
    by apply (compile_memoized _ w' p (Opcodes_new program)).
Qed.

(** C4: when a [compile()] call that returns has reached the compilation
    backend, the program the backend handed back is wrapped and stored in
    [_opcodes] and its validity returned, valid or not; and an instance
    with a unit in [_opcodes] comes out of every later call unchanged, with
    no further call of the compilation backend. *)
Theorem memoized_unit_is_terminal f w :
  (∀ b f1 w1,
     File_compile f w = (Ok b, f1, w1) → compilations w1 ≠ compilations w →
     ∃ p h w0 program,
       _path f = Some p ∧
       zend_stream_open p w = (Some h, w0) ∧
       (zend_compile_file (ensure_opened_path p h) w0).1 = Returns program ∧
       _opcodes f1 = Some (Opcodes_new program) ∧
       b = program_valid program) ∧
  (∀ o, _opcodes f = Some o →
     ∀ calls c w',
       replay f calls = f ∧
       (invoke c f w').1 = f ∧
       compilations (invoke c f w').2 = compilations w').
Proof.
  split.
  - intros b f1 w1 Hc Hreached.
    by_compile_cases f w; rewrite Hc0 in Hc; simplify_eq.
    + apply stream_open_failed in Hopen as (_ & _ & _ & Ht).
      unfold compilations in Hreached. rewrite Ht in Hreached. done.
    + exists p, h, w0, program. by rewrite Hback.
  - intros o Ho calls c w'. split; [by eapply replay_memoized|].
    by eapply invoke_memoized.
Qed.

(** C8: an instance built from a name that does not resolve answers, at
    any time and in any world, false to [exists()] and [valid()] and the
    null value to [execute()] and [once()], and each of these calls leaves
    the instance and the world exactly as they were. *)
Theorem unresolved_name_fails_uniformly name w0 calls w :
  zend_resolve_path name (ext w0) = None →
  let f := replay (File_new name w0) calls in
  _path f = None ∧
  File_exists f w = (Ok false, f, w) ∧
  File_valid f w = (Ok false, f, w) ∧
  File_execute f w = (Ok null_value, f, w) ∧
  File_once f w = (Ok null_value, f, w).
Proof.
  intros Hres f.
  assert (f = File_new name w0) as ->.
  { apply replay_unresolved; [|done]. exact Hres. }
  assert (_path (File_new name w0) = None) as Hp by exact Hres.
  split; [done|].
  split; [by apply exists_unresolved|].
  split; [by apply compile_unresolved|].
  split; [|by apply once_unresolved].
  apply execute_compile_false; [done | by apply compile_unresolved].
Qed.

(** C10: when [execute()] finds nothing memoized and the compilation it
    starts memoizes an invalid unit, that call returns the null value
    without calling the execution backend; every later [execute()] on the
    instance finds the unit and calls the execution backend on it. *)
Theorem execute_after_failed_compilation f w f1 w1 o :
  _opcodes f = None →
  File_compile f w = (Ok false, f1, w1) →
  _opcodes f1 = Some o →
  Opcodes_valid o = false ∧
  File_execute f w = (Ok null_value, f1, w1) ∧
  executions w1 = executions w ∧
  ∀ calls w',
    let f' := replay f1 calls in
    File_execute f' w' = Opcodes_execute o f' w' ∧
    trace (File_execute f' w').2 = EvExecute (op_array o) :: trace w' ∧
    executions (File_execute f' w').2 = S (executions w').
Proof.
  intros Ho Hc Ho1.
  assert (Opcodes_valid o = false) as Hv.
  { by_compile_cases f w; rewrite Hc0 in Hc; simplify_eq; try congruence.
    cbn in Ho1. by simplify_eq. }
  split; [done|]. split; [by apply execute_compile_false|].
  split.
  { pose proof (compile_frame f w) as [_ Hex]. by rewrite Hc in Hex. }
  intros calls w' f'. unfold f'. rewrite (replay_memoized f1 calls o Ho1).
  rewrite (execute_memoized f1 w' o Ho1).
  split; [done|]. split; [apply Opcodes_execute_trace|].
  unfold executions. by rewrite Opcodes_execute_trace.
Qed.

(** ** What each call adds to the record *)

Lemma count_app P (l1 l2 : list (Event (Program := Program) (Fault := Fault))) :
  count P (l1 ++ l2) = count P l1 + count P l2.
Proof. induction l1 as [|e l1 IH]; cbn; [done|]. rewrite IH. lia. Qed.

(** The engine calls of one [compile()], the latest first, with what the
    call leaves of the instance and of the open handles. *)
Lemma compile_trace f w :
  ∃ later,
    trace (File_compile f w).2 = later ++ trace w ∧
    ((later = [] ∧ (File_compile f w).1.2 = f ∧
      (∃ b, (File_compile f w).1.1 = Ok b) ∧
      open_handles (File_compile f w).2 = open_handles w) ∨
     (∃ p, later = [EvStreamOpen p None] ∧ _path f = Some p ∧
        (File_compile f w).1 = (Ok false, f) ∧ _opcodes f = None ∧
        open_handles (File_compile f w).2 = open_handles w) ∨
     (∃ p h program,
        later = [EvDestroyFileHandle (handle_id h);
                 EvCompileFile h (Returns program);
                 EvStreamOpen p (Some (handle_id h))] ∧
        opened_path h ≠ None ∧ filename h = p ∧ _path f = Some p ∧
        _opcodes f = None ∧
        (File_compile f w).1 =
          (Ok (program_valid program),
           mk_file (_original f) (_path f) (Some (Opcodes_new program))) ∧
        open_handles (File_compile f w).2 = open_handles w) ∨
     (∃ p h e,
        later = [EvCompileFile h (Raises e);
                 EvStreamOpen p (Some (handle_id h))] ∧
        opened_path h ≠ None ∧ filename h = p ∧ _path f = Some p ∧
        _opcodes f = None ∧
        (File_compile f w).1 = (Thrown e, f) ∧
        open_handles (File_compile f w).2 = handle_id h :: open_handles w)).
Proof.
  by_compile_cases f w; rewrite Hc; cbn.
  - exists []. split; [done|]. left. eauto.
  - exists []. split; [done|]. left. eauto.
  - apply stream_open_failed in Hopen as (_ & _ & Hh & Ht).
    exists [EvStreamOpen p None]. split; [by rewrite Ht|].
    right; left. exists p. by rewrite Hh.
  - apply stream_open_ok in Hopen as (_ & Hname & _ & Hh & Ht).
    apply compile_file_effect in Hback as (_ & Hh2 & Hback).
    eexists [_; _; _]. split; [by rewrite Hback, Ht|].
    right; right; left.
    exists p, (ensure_opened_path p h), program.
    rewrite ensure_opened_path_id, Hh2, Hh, release_head.
    repeat split; try done.
    + apply ensure_opened_path_set.
    + unfold ensure_opened_path. by destruct (opened_path h).
  - apply stream_open_ok in Hopen as (_ & Hname & _ & Hh & Ht).
    apply compile_file_effect in Hback as (_ & Hh2 & Hback).
    eexists [_; _]. split; [by rewrite Hback, Ht|].
    right; right; right.
    exists p, (ensure_opened_path p h), e.
    rewrite ensure_opened_path_id, Hh2, Hh.
    repeat split; try done.
    + apply ensure_opened_path_set.
    + unfold ensure_opened_path. by destruct (opened_path h).
Qed.


Lemma compile_follows f w :
  ∃ later,
    trace (File_compile f w).2 = later ++ trace w ∧ compile_calls later.
Proof.
  destruct (compile_trace f w) as (later & Ht & Hshape).
  exists later. split; [done|].
  destruct Hshape as
    [(-> & _)|[(p & -> & _)|[(p & h & program & -> & Hh & _)
    |(p & h & e & -> & Hh & _)]]]; by constructor.
Qed.

(** [execute()] without a memoized unit, in terms of the [compile()] it
    starts. *)
Lemma execute_after_compile f w :
  _opcodes f = None →
  File_execute f w =
    match File_compile f w with
    | (Ok true, f1, w1) =>
        match _opcodes f1 with
        | Some o => Opcodes_execute o f1 w1
        | None => (NullDeref, f1, w1)
        end
    | (Ok false, f1, w1) => (Ok null_value, f1, w1)
    | (Thrown e, f1, w1) => (Thrown e, f1, w1)
    | (NullDeref, f1, w1) => (NullDeref, f1, w1)
    end.
Proof.
  intros Ho. unfold File_execute, bind, read. rewrite Ho.
  destruct (File_compile f w) as [[[[|]|e|] f1] w1]; cbn; try done.
  by destruct (_opcodes f1).
Qed.

Lemma execute_follows f w :
  ∃ later,
    trace (File_execute f w).2 = later ++ trace w ∧ execute_calls later.
Proof.
  destruct (_opcodes f) as [o|] eqn:Ho.
  { exists [EvExecute (op_array o)].
    rewrite (execute_memoized f w o Ho), Opcodes_execute_trace.
    split; [done | constructor]. }
  rewrite (execute_after_compile f w Ho).
  destruct (compile_trace f w) as (later & Ht & Hshape).
  destruct (File_compile f w) as [[r f1] w1] eqn:Hc. cbn [fst snd] in *.
  destruct Hshape as
    [(-> & _ & [b ->] & _)|[(p & -> & _ & Hr & _)
    |[(p & h & program & -> & Hh & _ & _ & _ & Hr & _)
    |(p & h & e & -> & Hh & _ & _ & _ & Hr & _)]]]; simplify_eq.
  - destruct b.
    + destruct (compile_true_memoizes f w f1 w1 Hc) as (o & -> & _).
      exists [EvExecute (op_array o)]. rewrite Opcodes_execute_trace, Ht.
      split; [done | constructor].
    + exists []. split; [done | do 2 constructor].
  - eexists. split; [done | do 2 constructor].
  - destruct (program_valid program).
    + eexists (_ :: _). cbn [_opcodes]. rewrite Opcodes_execute_trace, Ht.
      split; [done | by constructor].
    + eexists. split; [done|]. by do 2 constructor.
  - eexists. split; [done|]. by do 2 constructor.
Qed.

Lemma once_follows f w :
  ∃ later,
    trace (File_once f w).2 = later ++ trace w ∧ once_calls later.
Proof.
  destruct (_path f) as [p|] eqn:Hp.
  2: { exists []. rewrite once_unresolved by done. split; [done | constructor]. }
  destruct (decide (p ∈ included_files w)) as [Hin|Hin].
  { exists []. rewrite (once_seen f w p) by done. split; [done | constructor]. }
  rewrite (once_fresh f w p) by done.
  destruct (execute_follows f (zend_hash_add_empty_element p w).2)
    as (later & Ht & Hcalls).
  exists (later ++ [EvHashAdd p]). rewrite Ht, <- app_assoc.
  split; [done | by constructor].
Qed.

Lemma exists_follows f w :
  ∃ later,
    trace (File_exists f w).2 = later ++ trace w ∧ exists_calls later.
Proof.
  destruct (exists_cases f w) as [->|[->|(p & _ & ->)]].
  - exists []. split; [done | by left].
  - exists []. split; [done | by left].
  - exists [EvStat p]. destruct (stat_effect p w) as (_ & _ & Ht).
    split; [done | right; by exists p].
Qed.

Lemma invoke_follows c f w :
  ∃ later,
    trace (invoke c f w).2 = later ++ trace w ∧ calls_of c later.
Proof.
  destruct c; unfold invoke; cbn [calls_of].
  - pose proof (exists_follows f w). by destruct (File_exists f w) as [[r f1] w1].
  - pose proof (compile_follows f w). unfold File_valid.
    by destruct (File_compile f w) as [[r f1] w1].
  - pose proof (compile_follows f w).
    by destruct (File_compile f w) as [[r f1] w1].
  - pose proof (execute_follows f w).
    by destruct (File_execute f w) as [[r f1] w1].
  - pose proof (once_follows f w). by destruct (File_once f w) as [[r f1] w1].
Qed.


(** ** Beyond one call *)

Implicit Types (later : list (Event (Program := Program) (Fault := Fault))).

Lemma session_cons f w change c steps :
  session f w ((change, c) :: steps) =
  session (invoke c f (elapse change w)).1 (invoke c f (elapse change w)).2 steps.
Proof. cbn [session]. by destruct (invoke c f (elapse change w)). Qed.

(** X1: whatever calls are made on an instance and whatever happens to the
    filesystem in between, its name and its path stay what the constructor
    set: the name is never resolved a second time. *)
Theorem path_is_fixed_at_construction name w0 w steps :
  let f := (session (File_new name w0) w steps).1 in
  _original f = name ∧ _path f = zend_resolve_path name (ext w0).
Proof.
  cbn zeta.
  change name with (_original (File_new name w0)) at 2.
  change (zend_resolve_path name (ext w0)) with (_path (File_new name w0)).
  generalize (File_new name w0). intros f. revert f w.
  induction steps as [|[change c] steps IH]; intros f w; [done|].
  rewrite session_cons.
  destruct (IH (invoke c f (elapse change w)).1 (invoke c f (elapse change w)).2)
    as [-> ->].
  apply invoke_keeps_path.
Qed.

(** X3: the engine calls of one method call come in a fixed order:
    [compile()] and [valid()] make none, or one failed open, or open,
    compile, destroy, or open and a compilation that faults; [execute()]
    makes those of [compile()], followed by one execution only when nothing
    more than open, compile, destroy came before; [once()] makes none, or
    the addition to the table followed by those of [execute()];
    [exists()] makes none or one [stat]. *)
Theorem engine_calls_follow_order c f w :
  ∃ later,
    trace (invoke c f w).2 = later ++ trace w ∧ calls_of c later.
Proof.
  destruct c; unfold invoke, File_valid; cbn [calls_of].
  - destruct (exists_follows f w) as (later & Ht & Hcalls).
    exists later. by destruct (File_exists f w) as [[r f1] w1].
  - destruct (compile_follows f w) as (later & Ht & Hcalls).
    exists later. by destruct (File_compile f w) as [[r f1] w1].
  - destruct (compile_follows f w) as (later & Ht & Hcalls).
    exists later. by destruct (File_compile f w) as [[r f1] w1].
  - destruct (execute_follows f w) as (later & Ht & Hcalls).
    exists later. by destruct (File_execute f w) as [[r f1] w1].
  - destruct (once_follows f w) as (later & Ht & Hcalls).
    exists later. by destruct (File_once f w) as [[r f1] w1].
Qed.

Lemma compile_calls_counts later :
  compile_calls later →
  count is_fs_access later ≤ 1 ∧ count is_compilation later ≤ 1 ∧
  count is_execution later = 0 ∧ count is_registration later = 0 ∧
  Forall (λ e, compiler_had_path e = true) later.
Proof.
  intros [|p|p h program Hh|p h e Hh]; cbn; repeat split; try lia;
    repeat constructor; cbn; by destruct (opened_path h).
Qed.

Lemma execute_calls_counts later :
  execute_calls later →
  count is_fs_access later ≤ 1 ∧ count is_compilation later ≤ 1 ∧
  count is_execution later ≤ 1 ∧ count is_registration later = 0 ∧
  Forall (λ e, compiler_had_path e = true) later.
Proof.
  intros [program|calls Hcalls|p h program Hh].
  - cbn. repeat split; try lia. by repeat constructor.
  - destruct (compile_calls_counts calls Hcalls) as (? & ? & ? & ? & ?).
    repeat split; try done; lia.
  - cbn. repeat split; try lia.
    repeat constructor; cbn; by destruct (opened_path h).
Qed.

Lemma calls_counts c later :
  calls_of c later →
  count is_fs_access later ≤ 1 ∧ count is_compilation later ≤ 1 ∧
  count is_execution later ≤ 1 ∧ count is_registration later ≤ 1 ∧
  Forall (λ e, compiler_had_path e = true) later.
Proof.
  destruct c; cbn [calls_of].
  - intros [->|[p ->]]; cbn; repeat split; try lia; by repeat constructor.
  - intros H. destruct (compile_calls_counts later H) as (? & ? & ? & ? & ?).
    repeat split; try done; lia.
  - intros H. destruct (compile_calls_counts later H) as (? & ? & ? & ? & ?).
    repeat split; try done; lia.
  - intros H. destruct (execute_calls_counts later H) as (? & ? & ? & ? & ?).
    repeat split; try done; lia.
  - intros [|p calls H].
    { cbn. repeat split; try lia. constructor. }
    destruct (execute_calls_counts calls H) as (? & ? & ? & ? & ?).
    rewrite !count_app. cbn. repeat split; try lia.
    apply Forall_app. split; [done | by repeat constructor].
Qed.

(** X4: one method call makes at most one filesystem access (an open or a
    [stat]), at most one call of the compilation backend, at most one of
    the execution backend and at most one addition to the table of
    included files. *)
Theorem one_call_one_of_each c f w :
  fs_accesses (invoke c f w).2 ≤ S (fs_accesses w) ∧
  compilations (invoke c f w).2 ≤ S (compilations w) ∧
  executions (invoke c f w).2 ≤ S (executions w) ∧
  registrations (invoke c f w).2 ≤ S (registrations w).
Proof.
  destruct (invoke_follows c f w) as (later & Ht & Hcalls).
  destruct (calls_counts c later Hcalls) as (? & ? & ? & ? & _).
  unfold fs_accesses, compilations, executions, registrations.
  rewrite Ht, !count_app. repeat split; lia.
Qed.

(** X5: the compilation backend is never given a handle without an
    [opened_path]: if that holds of the calls made so far, it holds after
    any further calls on an instance. *)
Theorem compiler_always_has_path steps f w :
  Forall (λ e, compiler_had_path e = true) (trace w) →
  Forall (λ e, compiler_had_path e = true) (trace (session f w steps).2).
Proof.
  revert f w. induction steps as [|[change c] steps IH]; intros f w Hw; [done|].
  rewrite session_cons. apply IH.
  destruct (invoke_follows c f (elapse change w)) as (later & -> & Hcalls).
  destruct (calls_counts c later Hcalls) as (_ & _ & _ & _ & Hlater).
  apply Forall_app. by split.
Qed.


Lemma execute_unmemoized f w :
  _opcodes f = None →
  ((File_compile f w).1.1 = Ok false ∧
   File_execute f w =
     (Ok null_value, (File_compile f w).1.2, (File_compile f w).2)) ∨
  (∃ e, (File_compile f w).1.1 = Thrown e ∧
     File_execute f w =
       (Thrown e, (File_compile f w).1.2, (File_compile f w).2)) ∨
  (∃ o, (File_compile f w).1.1 = Ok true ∧
     _opcodes (File_compile f w).1.2 = Some o ∧ Opcodes_valid o = true ∧
     File_execute f w =
       Opcodes_execute o (File_compile f w).1.2 (File_compile f w).2).
Proof.
  intros Ho. pose proof (compile_never_null f w) as Hnull.
  destruct (File_compile f w) as [[r f1] w1] eqn:Hc. cbn [fst snd] in *.
  destruct r as [[|]|e|]; [| | |done].
  - right; right.
    destruct (execute_compile_true f w f1 w1 Ho Hc) as (o & ? & ? & ?). eauto.
  - left. split; [done | by apply execute_compile_false].
  - right; left. exists e. split; [done | by apply execute_compile_fault].
Qed.

Lemma compile_handles f w :
  open_handles (File_compile f w).2 = open_handles w ∨
  ∃ h e later,
    (File_compile f w).1.1 = Thrown e ∧
    trace (File_compile f w).2 = EvCompileFile h (Raises e) :: later ∧
    open_handles (File_compile f w).2 = handle_id h :: open_handles w.
Proof.
  destruct (compile_trace f w) as (later & Ht & Hshape).
  destruct Hshape as
    [(_ & _ & _ & Hh)|[(p & _ & _ & _ & _ & Hh)
    |[(p & h & program & _ & _ & _ & _ & _ & _ & Hh)
    |(p & h & e & -> & _ & _ & _ & _ & Hr & Hh)]]]; try by left.
  right. exists h, e. eexists. by rewrite Hr, Ht, Hh.
Qed.

Lemma execute_handles f w :
  open_handles (File_execute f w).2 = open_handles w ∨
  ∃ h e later,
    (File_execute f w).1.1 = Thrown e ∧
    trace (File_execute f w).2 = EvCompileFile h (Raises e) :: later ∧
    open_handles (File_execute f w).2 = handle_id h :: open_handles w.
Proof.
  destruct (_opcodes f) as [o|] eqn:Ho.
  { left. by rewrite (execute_memoized f w o Ho), Opcodes_execute_handles. }
  destruct (execute_unmemoized f w Ho)
    as [[Hr ->]|[(e & Hr & ->)|(o & Hr & _ & _ & ->)]];
    destruct (compile_handles f w)
      as [Hh|(h & e' & later & Hr' & Ht & Hh)];
    rewrite ?Opcodes_execute_handles; cbn [fst snd];
    try (by left); try congruence.
  right. exists h, e, later. rewrite Hr in Hr'. by simplify_eq.
Qed.

Lemma once_handles f w :
  open_handles (File_once f w).2 = open_handles w ∨
  ∃ h e later,
    (File_once f w).1.1 = Thrown e ∧
    trace (File_once f w).2 = EvCompileFile h (Raises e) :: later ∧
    open_handles (File_once f w).2 = handle_id h :: open_handles w.
Proof.
  destruct (_path f) as [p|] eqn:Hp.
  2: { left. by rewrite once_unresolved. }
  destruct (decide (p ∈ included_files w)) as [Hin|Hin].
  { left. by rewrite (once_seen f w p). }
  rewrite (once_fresh f w p) by done.
  apply (execute_handles f (zend_hash_add_empty_element p w).2).
Qed.

(** X6: a method call leaves the open handles as it found them, unless
    its last engine call was a compilation that faulted, in which case the
    handle opened for it is left open; in particular [execute()] and
    [once()] that return have closed whatever they opened, and so have
    those left by a fault of the execution backend. *)
Theorem handles_outlive_only_a_compiler_fault c f w :
  (open_handles (invoke c f w).2 = open_handles w ∨
   ∃ h e later,
     trace (invoke c f w).2 = EvCompileFile h (Raises e) :: later ∧
     open_handles (invoke c f w).2 = handle_id h :: open_handles w) ∧
  (∀ v f1 w1, File_execute f w = (Ok v, f1, w1) →
     open_handles w1 = open_handles w) ∧
  (∀ v f1 w1, File_once f w = (Ok v, f1, w1) →
     open_handles w1 = open_handles w).
Proof.
  split; [|split].
  - destruct c; unfold invoke.
    + left. destruct (exists_cases f w) as [->|[->|(p & _ & ->)]]; try done.
      cbn [fst snd]. by destruct (stat_effect p w) as (_ & -> & _).
    + unfold File_valid.
      destruct (compile_handles f w) as [Hh|(h & e & later & _ & Ht & Hh)];
        destruct (File_compile f w) as [[r f1] w1]; eauto 6.
    + destruct (compile_handles f w) as [Hh|(h & e & later & _ & Ht & Hh)];
        destruct (File_compile f w) as [[r f1] w1]; eauto 6.
    + destruct (execute_handles f w) as [Hh|(h & e & later & _ & Ht & Hh)];
        destruct (File_execute f w) as [[r f1] w1]; eauto 6.
    + destruct (once_handles f w) as [Hh|(h & e & later & _ & Ht & Hh)];
        destruct (File_once f w) as [[r f1] w1]; eauto 6.
  - intros v f1 w1 Hr.
    destruct (execute_handles f w) as [Hh|(h & e & later & Hr' & _)];
      rewrite Hr in *; [done | discriminate].
  - intros v f1 w1 Hr.
    destruct (once_handles f w) as [Hh|(h & e & later & Hr' & _)];
      rewrite Hr in *; [done | discriminate].
Qed.

(** X7: when the stream opens and the compilation backend leaves by a
    fault, [compile()], [valid()] and [execute()] pass that fault on as it
    is; nothing is memoized, nothing is executed, the table of included
    files is untouched, and the handle that was opened stays open. *)
Theorem compiler_fault_is_passed_on f w p h w1 e w2 :
  _path f = Some p → _opcodes f = None →
  zend_stream_open p w = (Some h, w1) →
  zend_compile_file (ensure_opened_path p h) w1 = (Raises e, w2) →
  File_compile f w = (Thrown e, f, w2) ∧
  File_valid f w = (Thrown e, f, w2) ∧
  File_execute f w = (Thrown e, f, w2) ∧
  open_handles w2 = handle_id h :: open_handles w ∧
  executions w2 = executions w ∧
  included_files w2 = included_files w.
Proof.
  intros Hp Ho Hopen Hback.
  pose proof (compile_backend_fault f w p h w1 e w2 Hp Ho Hopen Hback) as Hc.
  split; [done|]. split; [done|].
  split; [by apply execute_compile_fault|].
  pose proof (compile_frame f w) as [Hinc Hex]. rewrite Hc in Hinc, Hex.
  split; [|done].
  apply stream_open_ok in Hopen as (_ & _ & _ & Hh & _).
  apply compile_file_effect in Hback as (_ & Hh2 & _). congruence.
Qed.

Lemma compile_programs f w :
  (_opcodes (File_compile f w).1.2 = _opcodes f ∧
   programs_compiled (File_compile f w).2 = programs_compiled w) ∨
  (_opcodes f = None ∧ is_Some (_opcodes (File_compile f w).1.2) ∧
   programs_compiled (File_compile f w).2 = S (programs_compiled w)).
Proof.
  destruct (compile_trace f w) as (later & Ht & Hshape).
  unfold programs_compiled. rewrite Ht, count_app.
  destruct Hshape as
    [(-> & -> & _)|[(p & -> & _ & -> & _)
    |[(p & h & program & -> & _ & _ & _ & Ho & -> & _)
    |(p & h & e & -> & _ & _ & _ & _ & -> & _)]]]; cbn; try by left.
  right. by eauto.
Qed.

Lemma execute_programs f w :
  (_opcodes (File_execute f w).1.2 = _opcodes f ∧
   programs_compiled (File_execute f w).2 = programs_compiled w) ∨
  (_opcodes f = None ∧ is_Some (_opcodes (File_execute f w).1.2) ∧
   programs_compiled (File_execute f w).2 = S (programs_compiled w)).
Proof.
  assert (∀ o f1 w1,
    _opcodes (Opcodes_execute o f1 w1).1.2 = _opcodes f1 ∧
    programs_compiled (Opcodes_execute o f1 w1).2 = programs_compiled w1)
    as Hrun.
  { intros o f1 w1. rewrite Opcodes_execute_this. split; [done|].
    unfold programs_compiled. by rewrite Opcodes_execute_trace. }
  destruct (_opcodes f) as [o|] eqn:Ho.
  { left. rewrite (execute_memoized f w o Ho).
    destruct (Hrun o f w) as [-> ->]. done. }
  destruct (execute_unmemoized f w Ho)
    as [[_ ->]|[(e & _ & ->)|(o & _ & _ & _ & ->)]]; cbn [fst snd];
    rewrite ?(proj1 (Hrun _ _ _)), ?(proj2 (Hrun _ _ _));
    destruct (compile_programs f w) as [[-> ->]|(_ & ? & ->)];
    rewrite ?Ho; eauto.
Qed.

Lemma invoke_programs c f w :
  (_opcodes (invoke c f w).1 = _opcodes f ∧
   programs_compiled (invoke c f w).2 = programs_compiled w) ∨
  (_opcodes f = None ∧ is_Some (_opcodes (invoke c f w).1) ∧
   programs_compiled (invoke c f w).2 = S (programs_compiled w)).
Proof.
  destruct c; unfold invoke.
  - left. destruct (exists_cases f w) as [->|[->|(p & _ & ->)]]; try done.
    cbn [fst snd]. destruct (stat_effect p w) as (_ & _ & Ht).
    unfold programs_compiled. by rewrite Ht.
  - pose proof (compile_programs f w). unfold File_valid.
    by destruct (File_compile f w) as [[r f1] w1].
  - pose proof (compile_programs f w).
    by destruct (File_compile f w) as [[r f1] w1].
  - pose proof (execute_programs f w).
    by destruct (File_execute f w) as [[r f1] w1].
  - destruct (_path f) as [p|] eqn:Hp.
    2: { left. by rewrite once_unresolved. }
    destruct (decide (p ∈ included_files w)) as [Hin|Hin].
    { left. by rewrite (once_seen f w p). }
    rewrite (once_fresh f w p) by done.
    pose proof (execute_programs f (zend_hash_add_empty_element p w).2) as H.
    by destruct (File_execute f _) as [[r f1] w1].
Qed.

(** X8: over any series of calls on one instance, with the filesystem
    changing at will in between, the compilation backend hands back a
    program at most once, and never when the instance starts with a unit
    memoized. *)
Theorem at_most_one_program_per_instance steps f w :
  programs_compiled (session f w steps).2
    ≤ programs_compiled w + match _opcodes f with Some _ => 0 | None => 1 end.
Proof.
  revert f w. induction steps as [|[change c] steps IH]; intros f w.
  { cbn. lia. }
  rewrite session_cons.
  specialize (IH (invoke c f (elapse change w)).1 (invoke c f (elapse change w)).2).
  destruct (invoke_programs c f (elapse change w))
    as [[Ho Hn]|(Ho & [o Ho'] & Hn)].
  - rewrite Ho, Hn in IH. exact IH.
  - rewrite Ho', Hn in IH. rewrite Ho.
    change (programs_compiled (elapse change w)) with (programs_compiled w) in IH.
    lia.
Qed.


Lemma once_registers f w p :
  registry_grows → _path f = Some p →
  p ∈ included_files (File_once f w).2.
Proof.
  intros Hgrow Hp. destruct (decide (p ∈ included_files w)) as [Hin|Hin].
  - by rewrite (once_seen f w p).
  - rewrite (once_fresh f w p) by done.
    eapply execute_registry_grows; [done|]. cbn. set_solver.
Qed.

Lemma once_each_seen (files : list ((Ext → Ext) * File)) w p :
  p ∈ included_files w →
  Forall (λ cf, _path cf.2 = Some p) files →
  trace (once_each files w) = trace w ∧
  included_files (once_each files w) = included_files w.
Proof.
  intros Hin Hall. revert w Hin.
  induction Hall as [|[change f] files Hp _ IH]; intros w Hin; [done|].
  cbn [once_each]. rewrite (once_seen f (elapse change w) p) by done.
  apply (IH (elapse change w)). done.
Qed.

(** X9: [once()] called on any number of instances that share a path, one
    after the other and whatever happens to the filesystem in between,
    calls the execution backend at most once, and the path is in the table
    afterwards. *)
Theorem once_each_executes_at_most_once
    (files : list ((Ext → Ext) * File)) w p :
  registry_grows →
  Forall (λ cf, _path cf.2 = Some p) files →
  executions (once_each files w) ≤ S (executions w) ∧
  (files ≠ [] → p ∈ included_files (once_each files w)).
Proof.
  intros Hgrow Hall. destruct Hall as [|[change f] files Hp Hall].
  { cbn. split; [lia | done]. }
  cbn [once_each]. cbn in Hp.
  pose proof (once_registers f (elapse change w) p Hgrow Hp) as Hin.
  destruct (once_each_seen files _ p Hin Hall) as [Ht Hinc].
  unfold executions at 1. rewrite Ht, Hinc. split; [|done].
  apply (once_executions f (elapse change w)).
Qed.

(** X10: when the path is resolved and not yet in the table and the
    stream cannot be opened, [once()] returns the null value having added
    the path to the table all the same; so no later [once()] for that
    path, on any instance and whatever has become of the file, opens,
    compiles or executes anything. *)
Theorem once_after_failed_open_is_final f w p :
  _path f = Some p → _opcodes f = None → p ∉ included_files w →
  (zend_stream_open_raw p (ext w)).1 = None →
  ∃ w1,
    File_once f w = (Ok null_value, f, w1) ∧
    included_files w1 = {[p]} ∪ included_files w ∧
    trace w1 = EvStreamOpen p None :: EvHashAdd p :: trace w ∧
    ∀ change g, _path g = Some p →
      File_once g (elapse change w1) = (Ok null_value, g, elapse change w1).
Proof.
  intros Hp Ho Hin Hraw.
  destruct (stream_open_raw_failed p (zend_hash_add_empty_element p w).2 Hraw)
    as [w1 Hopen].
  exists w1. rewrite (once_fresh f w p) by done.
  rewrite (execute_compile_false f _ f w1 Ho
             (compile_open_failure f _ p w1 Hp Ho Hopen)).
  apply stream_open_failed in Hopen as (_ & Hinc & _ & Ht).
  split; [done|]. split; [done|]. split; [done|].
  intros change g Hg. apply (once_seen g _ p Hg).
  cbn. rewrite Hinc. cbn. apply elem_of_union. left. by apply elem_of_singleton.
Qed.

Lemma executed_means_memoized f w :
  executions (File_execute f w).2 = S (executions w) →
  ∃ o, _opcodes (File_execute f w).1.2 = Some o.
Proof.
  intros Hex. destruct (_opcodes f) as [o|] eqn:Ho.
  { exists o. by rewrite (execute_memoized f w o Ho), Opcodes_execute_this. }
  pose proof (compile_frame f w) as [_ Hframe].
  destruct (execute_unmemoized f w Ho)
    as [[_ Hr]|[(e & _ & Hr)|(o & _ & Ho1 & _ & Hr)]];
    rewrite Hr in Hex |- *; cbn [fst snd] in *; [lia | lia |].
  exists o. by rewrite Opcodes_execute_this.
Qed.

(** X11: [execute()] neither consults nor writes the table of included
    files; so when an [execute()] has run the script and the script has not
    registered its own path, a [once()] on the instance runs it a second
    time. *)
Theorem execute_bypasses_the_table f w p :
  registrations (File_execute f w).2 = registrations w ∧
  (_path f = Some p →
   executions (File_execute f w).2 = S (executions w) →
   p ∉ included_files (File_execute f w).2 →
   executions (File_once (File_execute f w).1.2 (File_execute f w).2).2
     = S (S (executions w))).
Proof.
  split.
  - destruct (execute_follows f w) as (later & Ht & Hcalls).
    destruct (execute_calls_counts later Hcalls) as (_ & _ & _ & Hreg & _).
    unfold registrations. rewrite Ht, count_app. lia.
  - intros Hp Hex Hin.
    destruct (executed_means_memoized f w Hex) as [o Ho].
    pose proof (execute_keeps_path f w) as [_ Hpath]. rewrite Hp in Hpath.
    rewrite (once_fresh _ _ p Hpath Hin), (execute_memoized _ _ o Ho).
    unfold executions in *. rewrite Opcodes_execute_trace.
    cbn [zend_hash_add_empty_element snd trace count is_execution].
    by rewrite Hex.
Qed.

(** X12: when [execute()] is left by a fault of the execution backend, the
    compiled unit stays memoized: a later [execute()] hands it to the
    backend again, without opening or compiling anything. *)
Theorem execution_fault_keeps_the_unit f w e f1 w1 :
  File_execute f w = (Thrown e, f1, w1) →
  executions w1 = S (executions w) →
  ∃ o, _opcodes f1 = Some o ∧
    ∀ w',
      File_execute f1 w' = Opcodes_execute o f1 w' ∧
      trace (File_execute f1 w').2 = EvExecute (op_array o) :: trace w'.
Proof.
  intros Hr Hex.
  destruct (executed_means_memoized f w) as [o Ho]; [by rewrite Hr|].
  rewrite Hr in Ho. exists o. split; [done|]. intros w'.
  rewrite (execute_memoized f1 w' o Ho).
  split; [done | apply Opcodes_execute_trace].
Qed.

Lemma compile_true_resolved f w f1 w1 :
  File_compile f w = (Ok true, f1, w1) →
  ∃ p o, _path f1 = Some p ∧ _opcodes f1 = Some o ∧ Opcodes_valid o = true.
Proof.
  intros Hc. destruct (compile_true_memoizes f w f1 w1 Hc) as (o & Ho & Hv).
  pose proof (compile_keeps_path f w) as [_ Hpath]. rewrite Hc in Hpath.
  destruct (_path f) as [p|] eqn:Hp.
  - exists p, o. done.
  - rewrite compile_unresolved in Hc by done. discriminate.
Qed.

Lemma invoke_valid_unit c f w p o :
  _path f = Some p → _opcodes f = Some o → Opcodes_valid o = true →
  (invoke c f w).1 = f ∧
  fs_accesses (invoke c f w).2 = fs_accesses w ∧
  compilations (invoke c f w).2 = compilations w.
Proof.
  intros Hp Ho Hv.
  destruct (invoke_memoized c f w o Ho) as [Hf Hcomp].
  split; [done|]. split; [|done].
  destruct c; unfold invoke.
  - by rewrite (exists_fast_path f w p o).
  - unfold File_valid. by rewrite (compile_memoized f w p o).
  - by rewrite (compile_memoized f w p o).
  - rewrite (execute_memoized f w o Ho).
    pose proof (Opcodes_execute_trace o f w) as Ht.
    destruct (Opcodes_execute o f w) as [[r f'] w']. cbn [fst snd] in *.
    unfold fs_accesses. by rewrite Ht.
  - destruct (decide (p ∈ included_files w)) as [Hin|Hin].
    { by rewrite (once_seen f w p). }
    rewrite (once_fresh f w p), (execute_memoized f _ o Ho) by done.
    pose proof (Opcodes_execute_trace o f (zend_hash_add_empty_element p w).2) as Ht.
    destruct (Opcodes_execute o f _) as [[r f'] w']. cbn [fst snd] in *.
    unfold fs_accesses. by rewrite Ht.
Qed.

(** X14: once [valid()] has returned true, no call on the instance opens
    a stream, calls [stat] or compiles again, whatever happens to the file
    afterwards; the instance stays as it is. *)
Theorem valid_instance_never_touches_the_filesystem f w f1 w1 steps w' :
  File_valid f w = (Ok true, f1, w1) →
  (session f1 w' steps).1 = f1 ∧
  fs_accesses (session f1 w' steps).2 = fs_accesses w' ∧
  compilations (session f1 w' steps).2 = compilations w'.
Proof.
  intros Hv. destruct (compile_true_resolved f w f1 w1 Hv) as (p & o & Hp & Ho & Hvalid).
  clear Hv. revert w'.
  induction steps as [|[change c] steps IH]; intros w'; [done|].
  rewrite session_cons.
  destruct (invoke_valid_unit c f1 (elapse change w') p o Hp Ho Hvalid)
    as (Hf & Hfs & Hcomp).
  rewrite Hf. destruct (IH (invoke c f1 (elapse change w')).2) as (-> & -> & ->).
  by rewrite Hfs, Hcomp.
Qed.

Lemma invoke_registry_grows c f w :
  registry_grows → included_files w ⊆ included_files (invoke c f w).2.
Proof.
  intros Hgrow. destruct c; unfold invoke.
  - destruct (exists_cases f w) as [->|[->|(p & _ & ->)]]; try done.
    cbn [fst snd]. by destruct (stat_effect p w) as (-> & _).
  - pose proof (compile_frame f w) as [Hinc _]. unfold File_valid.
    destruct (File_compile f w) as [[r f1] w1]. cbn [fst snd] in *.
    by rewrite Hinc.
  - pose proof (compile_frame f w) as [Hinc _].
    destruct (File_compile f w) as [[r f1] w1]. cbn [fst snd] in *.
    by rewrite Hinc.
  - pose proof (execute_registry_grows f w Hgrow).
    by destruct (File_execute f w) as [[r f1] w1].
  - pose proof (once_registry_grows f w Hgrow).
    by destruct (File_once f w) as [[r f1] w1].
Qed.

(** X15: [exists()], [valid()] and [compile()] leave the table of included
    files alone; and provided the execution backend only adds to it, no
    series of calls on an instance ever takes a path out of it. *)
Theorem table_is_only_added_to f w :
  included_files (File_exists f w).2 = included_files w ∧
  included_files (File_valid f w).2 = included_files w ∧
  included_files (File_compile f w).2 = included_files w ∧
  (registry_grows →
   ∀ steps, included_files w ⊆ included_files (session f w steps).2).
Proof.
  split; [|split; [|split]].
  - destruct (exists_cases f w) as [->|[->|(p & _ & ->)]]; try done.
    cbn [fst snd]. by destruct (stat_effect p w) as (-> & _).
  - apply compile_frame.
  - apply compile_frame.
  - intros Hgrow steps. revert f w.
    induction steps as [|[change c] steps IH]; intros f w; [done|].
    rewrite session_cons. etrans; [|apply IH].
    apply (invoke_registry_grows c f (elapse change w) Hgrow).
Qed.


(** The same instance under another name. *)
Lemma compile_renamed n f w :
  File_compile (mk_file n (_path f) (_opcodes f)) w =
  (let '(r, f1, w1) := File_compile f w in
   (r, mk_file n (_path f1) (_opcodes f1), w1)).
Proof.
  destruct f as [n0 [p|] [o|]]; step_method; try done.
  destruct (zend_stream_open p w) as [[h|] w1]; cbn; [|done].
  by destruct (zend_compile_file (ensure_opened_path p h) w1) as [[program|e] w2].
Qed.

Lemma execute_renamed n f w :
  File_execute (mk_file n (_path f) (_opcodes f)) w =
  (let '(r, f1, w1) := File_execute f w in
   (r, mk_file n (_path f1) (_opcodes f1), w1)).
Proof.
  destruct f as [n0 p [o|]]; cbn [_path _opcodes].
  { rewrite (execute_memoized (mk_file n p (Some o)) w o eq_refl).
    rewrite (execute_memoized (mk_file n0 p (Some o)) w o eq_refl).
    by rewrite !Opcodes_execute_unfold. }
  rewrite (execute_after_compile (mk_file n p None) w eq_refl).
  rewrite (execute_after_compile (mk_file n0 p None) w eq_refl).
  pose proof (compile_renamed n (mk_file n0 p None) w) as Hc.
  cbn [_path _opcodes] in Hc. rewrite Hc.
  destruct (File_compile (mk_file n0 p None) w) as [[[[|]|e|] f1] w1];
    cbn; try done.
  destruct (_opcodes f1) as [o|] eqn:Ho1; cbn; rewrite ?Ho1; [|done].
  rewrite !Opcodes_execute_unfold. by rewrite Ho1.
Qed.

Lemma once_renamed n f w :
  File_once (mk_file n (_path f) (_opcodes f)) w =
  (let '(r, f1, w1) := File_once f w in
   (r, mk_file n (_path f1) (_opcodes f1), w1)).
Proof.
  destruct f as [n0 [p|] ops]; cbn [_path _opcodes].
  2: { by rewrite !once_unresolved. }
  destruct (decide (p ∈ included_files w)) as [Hin|Hin].
  { by rewrite !(once_seen _ w p). }
  rewrite !(once_fresh _ w p) by done.
  exact (execute_renamed n (mk_file n0 (Some p) ops) _).
Qed.

Lemma exists_renamed n f w :
  File_exists (mk_file n (_path f) (_opcodes f)) w =
  (let '(r, f1, w1) := File_exists f w in
   (r, mk_file n (_path f1) (_opcodes f1), w1)).
Proof.
  destruct f as [n0 [p|] [o|]]; step_method; try done.
  - destruct (Opcodes_valid o); [done|]. by destruct (stat p w).
  - by destruct (stat p w).
Qed.

(** X13: after construction the name the instance was built from is never
    read: two instances that differ in it only get the same answer from
    every method, leave the same world behind, and differ in it only
    afterwards. *)
Theorem original_name_is_never_read n f w :
  let g := mk_file n (_path f) (_opcodes f) in
  (File_exists g w).1.1 = (File_exists f w).1.1 ∧
  (File_valid g w).1.1 = (File_valid f w).1.1 ∧
  (File_execute g w).1.1 = (File_execute f w).1.1 ∧
  (File_once g w).1.1 = (File_once f w).1.1 ∧
  ∀ c,
    (invoke c g w).2 = (invoke c f w).2 ∧
    (invoke c g w).1 =
      mk_file n (_path (invoke c f w).1) (_opcodes (invoke c f w).1).
Proof.
  intros g. unfold g, File_valid.
  split; [|split; [|split; [|split]]].
  - rewrite exists_renamed. by destruct (File_exists f w) as [[r f1] w1].
  - rewrite compile_renamed. by destruct (File_compile f w) as [[r f1] w1].
  - rewrite execute_renamed. by destruct (File_execute f w) as [[r f1] w1].
  - rewrite once_renamed. by destruct (File_once f w) as [[r f1] w1].
  - intros c. destruct c; unfold invoke, File_valid.
    + rewrite exists_renamed. by destruct (File_exists f w) as [[r f1] w1].
    + rewrite compile_renamed. by destruct (File_compile f w) as [[r f1] w1].
    + rewrite compile_renamed. by destruct (File_compile f w) as [[r f1] w1].
    + rewrite execute_renamed. by destruct (File_execute f w) as [[r f1] w1].
    + rewrite once_renamed. by destruct (File_once f w) as [[r f1] w1].
Qed.

Lemma execute_first_run f w :
  _opcodes f = None →
  executions (File_execute f w).2 = S (executions w) →
  ∃ o, _opcodes (File_execute f w).1.2 = Some o ∧ Opcodes_valid o = true.
Proof.
  intros Ho Hex. pose proof (compile_frame f w) as [_ Hframe].
  destruct (execute_unmemoized f w Ho)
    as [[_ Hr]|[(e & _ & Hr)|(o & _ & Ho1 & Hv & Hr)]];
    rewrite Hr in Hex |- *; cbn [fst snd] in *; [lia | lia |].
  exists o. by rewrite Opcodes_execute_this.
Qed.

(** X16: an instance that holds no unit never hands an invalid program
    to the execution backend: when [execute()] or [once()] on it has
    called the backend, the unit it has memoized on the way is valid.  An
    invalid program is only ever run from a unit memoized by an earlier
    call. *)
Theorem first_run_needs_valid_program f w :
  _opcodes f = None →
  (executions (File_execute f w).2 = S (executions w) →
   ∃ o, _opcodes (File_execute f w).1.2 = Some o ∧ Opcodes_valid o = true) ∧
  (executions (File_once f w).2 = S (executions w) →
   ∃ o, _opcodes (File_once f w).1.2 = Some o ∧ Opcodes_valid o = true).
Proof.
  intros Ho. split; [by apply execute_first_run|].
  destruct (_path f) as [p|] eqn:Hp.
  2: { rewrite once_unresolved by done. cbn. lia. }
  destruct (decide (p ∈ included_files w)) as [Hin|Hin].
  { rewrite (once_seen f w p) by done. cbn. lia. }
  rewrite (once_fresh f w p) by done.
  apply (execute_first_run f (zend_hash_add_empty_element p w).2 Ho).
Qed.


End Theory.

(** * The small engine satisfies the assumption, and the results at work *)

Lemma steps_include below name k inc d :
  Demo.steps below (Demo.IncludeOnce name k) inc d =
  let w := mk_world inc d [] 0 [] in
  match File_once (Eng := below) (File_new (Eng := below) name w) w with
  | (Ok _, _, w') => Demo.steps below k (included_files w') (ext w')
  | (Thrown e, _, w') => (Raises e, included_files w', ext w')
  | (NullDeref, _, w') =>
      (Raises "null dereference"%string, included_files w', ext w')
  end.
Proof. reflexivity. Qed.

Lemma steps_registry_grows below s inc d :
  registry_grows (Eng := below) →
  inc ⊆ (Demo.steps below s inc d).1.2.
Proof.
  intros Hgrow. revert inc d.
  induction s as [v|msg|name k IH]; intros inc d; [done|done|].
  rewrite steps_include. cbv zeta.
  pose proof (once_registry_grows (Eng := below)
    (File_new (Eng := below) name (mk_world inc d [] 0 []))
    (mk_world inc d [] 0 []) Hgrow) as Hsub.
  destruct (File_once (File_new name (mk_world inc d [] 0 [])) _)
    as [[[v|e|] f'] w']; cbn in *; try exact Hsub.
  etrans; [exact Hsub | apply IH].
Qed.

Lemma engine_registry_grows depth :
  registry_grows (Eng := Demo.engine depth).
Proof.
  induction depth as [|depth IH]; intros program inc d; cbn; [done|].
  destruct program as [s|]; [|done].
  by apply steps_registry_grows.
Qed.

(** The script that loads itself runs once: the nested [once()] finds the
    path registered and is skipped. *)
Example self_loading_script_runs_once :
  let f := File_new (Eng := Demo.php) "a.inc" Demo.fresh in
  let '(r, f', w) := File_once (Eng := Demo.php) f Demo.fresh in
  r = Ok (Some 7) ∧ executions w = 1 ∧
  elements (included_files w) = ["/scripts/a.inc"%string].
Proof. vm_compute. done. Qed.

(** When the compiler bails out, [once()] passes the fault on: the path
    stays registered, and the handle opened for the compilation stays
    open. *)
Example compiler_fault_during_once :
  let f := File_new (Eng := Demo.php) "e.inc" Demo.fresh in
  let '(r, f', w) := File_once (Eng := Demo.php) f Demo.fresh in
  r = Thrown "cannot redeclare"%string ∧ f' = f ∧
  elements (included_files w) = ["/scripts/e.inc"%string] ∧
  open_handles w = [0] ∧ executions w = 0.
Proof. vm_compute. done. Qed.

(** ** The theorems at concrete inputs *)

#[local] Existing Instance Demo.php.

Lemma php_registry_grows : registry_grows (Eng := Demo.php).
Proof. apply engine_registry_grows. Qed.

Lemma once_only_witness :
  let f := File_new "a.inc" Demo.fresh in
  let g := mk_file "./a.inc" (Some "/scripts/a.inc"%string) None in
  let w1 := (File_once f Demo.fresh).2 in
  registry_grows ∧
  _path f = Some "/scripts/a.inc"%string ∧
  _path g = Some "/scripts/a.inc"%string ∧
  File_once g w1 = (Ok None, g, w1) ∧
  executions (File_once g w1).2 ≤ 1.
Proof.
  intros f g w1.
  split; [apply php_registry_grows|].
  split; [reflexivity|]. split; [reflexivity|].
  destruct (once_only f g Demo.fresh "/scripts/a.inc"
              php_registry_grows eq_refl eq_refl)
    as (_ & _ & Hsecond & Hcount).
  split; [exact Hsecond | exact Hcount].
Defined.

Lemma once_registers_before_executing_witness :
  let f := File_new "c.inc" Demo.fresh in
  registry_grows ∧
  _path f = Some "/scripts/c.inc"%string ∧
  ("/scripts/c.inc"%string ∉ included_files Demo.fresh) ∧
  (File_once f Demo.fresh).1.1 = Thrown "boom"%string ∧
  ("/scripts/c.inc"%string
     ∈ included_files (File_once f Demo.fresh).2).
Proof.
  intros f.
  assert (("/scripts/c.inc"%string) ∉ included_files Demo.fresh) as Hfresh
    by (cbn; set_solver).
  split; [apply php_registry_grows|].
  split; [reflexivity|]. split; [exact Hfresh|].
  split; [vm_compute; reflexivity|].
  destruct (once_registers_before_executing
              f Demo.fresh "/scripts/c.inc"
              php_registry_grows eq_refl Hfresh)
    as (_ & _ & _ & _ & Hafter & _).
  exact Hafter.
Defined.

(** A failed open fixes nothing: /scripts/d.inc cannot be opened at the
    first attempt, so the first [compile()] returns false with nothing
    memoized; the second opens the stream again, calls the compilation
    backend and returns true.  The false of a failed open is not a
    validity that later calls repeat. *)
Lemma compile_after_open_failure_differs :
  let f := File_new "d.inc" Demo.fresh in
  let first := File_compile f Demo.fresh in
  let second := File_compile first.1.2 first.2 in
  first.1.1 = Ok false ∧
  second.1.1 = Ok true ∧
  fs_accesses second.2 = S (fs_accesses first.2) ∧
  compilations second.2 = S (compilations first.2) ∧
  ¬ (∀ f0 w V f1 w1,
       File_compile f0 w = (Ok V, f1, w1) →
       File_compile f1 w1 = (Ok V, f1, w1)).
Proof.
  intros f first second.
  split; [vm_compute; reflexivity|]. split; [vm_compute; reflexivity|].
  split; [vm_compute; reflexivity|]. split; [vm_compute; reflexivity|].
  intros Hclaim.
  specialize (Hclaim f Demo.fresh false first.1.2 first.2).
  assert (second.1.1 = Ok false) as Hsecond.
  { unfold second. rewrite Hclaim; [reflexivity | vm_compute; reflexivity]. }
  vm_compute in Hsecond. discriminate Hsecond.
Qed.

Lemma compile_idempotent_once_settled_witness :
  let f := File_new "b.inc" Demo.fresh in
  let first := File_compile f Demo.fresh in
  let f' := replay first.1.2
              [(call_execute, first.2); (call_exists, Demo.fresh)] in
  first = (Ok false, first.1.2, first.2) ∧
  _opcodes first.1.2 ≠ None ∧
  File_compile f' Demo.fresh = (Ok false, f', Demo.fresh).
Proof.
  intros f first f'.
  assert (first = (Ok false, first.1.2, first.2)) as Hfirst
    by (vm_compute; reflexivity).
  assert (_opcodes first.1.2 ≠ None) as Hmemo by (vm_compute; discriminate).
  split; [exact Hfirst|]. split; [exact Hmemo|].
  destruct (compile_idempotent_once_settled
              f Demo.fresh false first.1.2 first.2 Hfirst (or_intror Hmemo)
              [(call_execute, first.2); (call_exists, Demo.fresh)] Demo.fresh)
    as (_ & Hagain & _).
  exact Hagain.
Defined.

Lemma memoized_unit_is_terminal_witness :
  let f := File_new "b.inc" Demo.fresh in
  let first := File_compile f Demo.fresh in
  compilations first.2 ≠ compilations Demo.fresh ∧
  ∃ p h w0 program,
    _path f = Some p ∧
    zend_stream_open p Demo.fresh = (Some h, w0) ∧
    (zend_compile_file (ensure_opened_path p h) w0).1 = Returns program ∧
    _opcodes first.1.2 = Some (Opcodes_new program) ∧
    false = program_valid program.
Proof.
  intros f first.
  assert (compilations first.2 ≠ compilations Demo.fresh) as Hreached
    by (vm_compute; discriminate).
  split; [exact Hreached|].
  destruct (memoized_unit_is_terminal f Demo.fresh)
    as [Hstore _].
  apply (Hstore false first.1.2 first.2); [|exact Hreached].
  vm_compute; reflexivity.
Defined.

Lemma execute_semantics_witness :
  let f := File_new "b.inc" Demo.fresh in
  let first := File_compile f Demo.fresh in
  _opcodes f = None ∧
  first = (Ok false, first.1.2, first.2) ∧
  File_execute f Demo.fresh = (Ok None, first.1.2, first.2).
Proof.
  intros f first.
  assert (first = (Ok false, first.1.2, first.2)) as Hfirst
    by (vm_compute; reflexivity).
  split; [reflexivity|]. split; [exact Hfirst|].
  destruct (execute_semantics f Demo.fresh)
    as (_ & Hfalse & _).
  exact (Hfalse first.1.2 first.2 eq_refl Hfirst).
Defined.

Lemma open_failure_is_retryable_witness :
  let f := File_new "d.inc" Demo.fresh in
  _path f = Some "/scripts/d.inc"%string ∧
  _opcodes f = None ∧
  (zend_stream_open_raw "/scripts/d.inc"
     (ext Demo.fresh)).1 = None ∧
  ∃ w1, File_compile f Demo.fresh = (Ok false, f, w1) ∧
        compilations w1 = compilations Demo.fresh.
Proof.
  intros f.
  assert ((zend_stream_open_raw "/scripts/d.inc" (ext Demo.fresh)).1 = None)
    as Hfails by reflexivity.
  split; [reflexivity|]. split; [reflexivity|]. split; [exact Hfails|].
  destruct (open_failure_is_retryable
              f Demo.fresh "/scripts/d.inc" eq_refl eq_refl Hfails)
    as (w1 & Hfalse & Hcomp & _).
  exists w1. split; [exact Hfalse | exact Hcomp].
Defined.

(** The file has been compiled and then deleted: the disk is empty. *)
Lemma exists_behaviour_witness :
  let f := mk_file "a.inc" (Some "/scripts/a.inc"%string)
             (Some (Opcodes_new (Some (Demo.Return 7)))) in
  let w := mk_world ∅ ([] : Demo.Disk) [] 0 [] in
  Opcodes_valid (Opcodes_new (Some (Demo.Return 7))) = true ∧
  (stat "/scripts/a.inc" w).1 = false ∧
  File_exists f w = (Ok true, f, w).
Proof.
  intros f w.
  assert (Opcodes_valid (Opcodes_new (Some (Demo.Return 7))) = true)
    as Hvalid by reflexivity.
  split; [exact Hvalid|]. split; [reflexivity|].
  destruct (exists_behaviour f w) as (_ & Hfast & _).
  exact (Hfast "/scripts/a.inc"%string _ eq_refl eq_refl Hvalid).
Defined.

Lemma unresolved_name_fails_uniformly_witness :
  let f := replay
             (File_new "missing.inc" Demo.fresh)
             [(call_once, Demo.fresh); (call_valid, Demo.fresh)] in
  zend_resolve_path "missing.inc" (ext Demo.fresh) = None ∧
  File_exists f Demo.fresh = (Ok false, f, Demo.fresh) ∧
  File_valid f Demo.fresh = (Ok false, f, Demo.fresh) ∧
  File_execute f Demo.fresh = (Ok None, f, Demo.fresh) ∧
  File_once f Demo.fresh = (Ok None, f, Demo.fresh).
Proof.
  intros f.
  assert (zend_resolve_path "missing.inc" (ext Demo.fresh) = None)
    as Hmissing by reflexivity.
  split; [exact Hmissing|].
  destruct (unresolved_name_fails_uniformly
              "missing.inc" Demo.fresh
              [(call_once, Demo.fresh); (call_valid, Demo.fresh)]
              Demo.fresh Hmissing)
    as (_ & Hexists & Hvalid & Hexecute & Honce).
  repeat split; assumption.
Defined.

Lemma compile_releases_file_handle_witness :
  let f := File_new "b.inc" Demo.fresh in
  let opened := zend_stream_open "/scripts/b.inc" Demo.fresh in
  let h := mk_handle 0 "/scripts/b.inc" None in
  let compiled := zend_compile_file (ensure_opened_path "/scripts/b.inc" h) opened.2 in
  opened = (Some h, opened.2) ∧
  compiled = (Returns None, compiled.2) ∧
  open_handles opened.2 = [0] ∧
  (File_compile f Demo.fresh).1.1 = Ok false ∧
  trace (File_compile f Demo.fresh).2 =
    [EvDestroyFileHandle 0;
     EvCompileFile (mk_handle 0 "/scripts/b.inc" (Some "/scripts/b.inc"%string))
       (Returns None);
     EvStreamOpen "/scripts/b.inc" (Some 0)] ∧
  open_handles (File_compile f Demo.fresh).2 = [].
Proof.
  intros f opened h compiled.
  assert (opened = (Some h, opened.2)) as Hopened by reflexivity.
  assert (compiled = (Returns None, compiled.2)) as Hcompiled by reflexivity.
  split; [exact Hopened|]. split; [exact Hcompiled|].
  destruct (compile_releases_file_handle f Demo.fresh) as (_ & Hscoped & _).
  exact (Hscoped "/scripts/b.inc"%string h opened.2 None compiled.2
           eq_refl eq_refl Hopened Hcompiled).
Defined.

(** C9 as it is written fails on the exit by a fault: the compiler bails
    out on /scripts/e.inc after the stream has been opened, [compile()] is
    left by that fault without the destroy call, and the handle stays
    open. *)
Lemma compile_fault_leaves_handle_open :
  let f := File_new "e.inc" Demo.fresh in
  let p := "/scripts/e.inc"%string in
  let opened := zend_stream_open p Demo.fresh in
  opened.1 = Some (mk_handle 0 p (Some p)) ∧
  (File_compile f Demo.fresh).1.1 = Thrown "cannot redeclare"%string ∧
  trace (File_compile f Demo.fresh).2 =
    [EvCompileFile (mk_handle 0 p (Some p)) (Raises "cannot redeclare"%string);
     EvStreamOpen p (Some 0)] ∧
  open_handles Demo.fresh = [] ∧
  open_handles (File_compile f Demo.fresh).2 = [0] ∧
  ¬ (∀ f0 w p0 h w1,
       _path f0 = Some p0 → _opcodes f0 = None →
       zend_stream_open p0 w = (Some h, w1) →
       open_handles (File_compile f0 w).2 = open_handles w).
Proof.
  intros f p opened.
  split; [reflexivity|]. split; [vm_compute; reflexivity|].
  split; [vm_compute; reflexivity|]. split; [reflexivity|].
  split; [vm_compute; reflexivity|].
  intros Hclaim.
  assert (opened = (Some (mk_handle 0 p (Some p)), opened.2)) as Hopened
    by reflexivity.
  specialize (Hclaim f Demo.fresh p (mk_handle 0 p (Some p)) opened.2
                eq_refl eq_refl Hopened).
  vm_compute in Hclaim. discriminate Hclaim.
Qed.

Lemma execute_after_failed_compilation_witness :
  let f := File_new "b.inc" Demo.fresh in
  let first := File_compile f Demo.fresh in
  let o := Opcodes_new (None : option Demo.Script) in
  _opcodes f = None ∧
  first = (Ok false, first.1.2, first.2) ∧
  _opcodes first.1.2 = Some o ∧
  File_execute f Demo.fresh = (Ok None, first.1.2, first.2) ∧
  trace (File_execute first.1.2 first.2).2
    = EvExecute None :: trace first.2.
Proof.
  intros f first o.
  assert (first = (Ok false, first.1.2, first.2)) as Hfirst
    by (vm_compute; reflexivity).
  split; [reflexivity|]. split; [exact Hfirst|]. split; [reflexivity|].
  destruct (execute_after_failed_compilation
              f Demo.fresh first.1.2 first.2 o eq_refl Hfirst eq_refl)
    as (_ & Hnull & _ & Hlater).
  split; [exact Hnull|].
  destruct (Hlater [] first.2) as (_ & Htrace & _).
  exact Htrace.
Defined.

(** ** The further properties at concrete inputs *)

Lemma compiler_always_has_path_witness :
  let f := File_new "b.inc" Demo.fresh in
  let steps := [((λ d : Demo.Disk, d), call_valid); ((λ d, d), call_once)] in
  Forall (λ e, compiler_had_path e = true) (trace Demo.fresh) ∧
  Forall (λ e, compiler_had_path e = true)
         (trace (session f Demo.fresh steps).2).
Proof.
  intros f steps.
  assert (Forall (λ e, compiler_had_path e = true) (trace Demo.fresh)) as Hnone
    by constructor.
  split; [exact Hnone|].
  exact (compiler_always_has_path steps f Demo.fresh Hnone).
Defined.

Lemma handles_outlive_only_a_compiler_fault_witness :
  let f := File_new "a.inc" Demo.fresh in
  let first := File_once f Demo.fresh in
  first = (Ok (Some 7), first.1.2, first.2) ∧
  open_handles first.2 = open_handles Demo.fresh.
Proof.
  intros f first.
  assert (first = (Ok (Some 7), first.1.2, first.2)) as Hfirst
    by (vm_compute; reflexivity).
  split; [exact Hfirst|].
  destruct (handles_outlive_only_a_compiler_fault call_once f Demo.fresh)
    as (_ & _ & Honce).
  exact (Honce (Some 7) first.1.2 first.2 Hfirst).
Defined.

Lemma compiler_fault_is_passed_on_witness :
  let f := File_new "e.inc" Demo.fresh in
  let p := "/scripts/e.inc"%string in
  let h := mk_handle 0 p (Some p) in
  let opened := zend_stream_open p Demo.fresh in
  let compiled := zend_compile_file (ensure_opened_path p h) opened.2 in
  opened = (Some h, opened.2) ∧
  compiled = (Raises "cannot redeclare"%string, compiled.2) ∧
  File_execute f Demo.fresh = (Thrown "cannot redeclare"%string, f, compiled.2) ∧
  open_handles compiled.2 = [0].
Proof.
  intros f p h opened compiled.
  assert (opened = (Some h, opened.2)) as Hopened by reflexivity.
  assert (compiled = (Raises "cannot redeclare"%string, compiled.2))
    as Hcompiled by reflexivity.
  split; [exact Hopened|]. split; [exact Hcompiled|].
  destruct (compiler_fault_is_passed_on f Demo.fresh p h opened.2
              "cannot redeclare"%string compiled.2
              eq_refl eq_refl Hopened Hcompiled)
    as (_ & _ & Hexecute & Hhandles & _).
  split; [exact Hexecute | exact Hhandles].
Defined.

Lemma once_each_executes_at_most_once_witness :
  let p := "/scripts/a.inc"%string in
  let files :=
    [((λ d : Demo.Disk, d), File_new "a.inc" Demo.fresh);
     ((λ d, d), mk_file "./a.inc" (Some p) None);
     ((λ _, []), mk_file "other/../a.inc" (Some p) None)] in
  registry_grows (Eng := Demo.php) ∧
  Forall (λ cf, _path cf.2 = Some p) files ∧
  executions (once_each files Demo.fresh) ≤ 1.
Proof.
  intros p files.
  assert (Forall (λ cf, _path cf.2 = Some p) files) as Hall
    by (repeat constructor).
  split; [apply php_registry_grows|]. split; [exact Hall|].
  destruct (once_each_executes_at_most_once files Demo.fresh p
              php_registry_grows Hall) as [Hcount _].
  exact Hcount.
Defined.

(** The file becomes readable after the first [once()]. *)
Lemma once_after_failed_open_is_final_witness :
  let f := File_new "d.inc" Demo.fresh in
  let p := "/scripts/d.inc"%string in
  let readable : Demo.Disk → Demo.Disk :=
    λ _, [(p, Demo.mk_source 0 true (Demo.Compiles (Demo.Return 1)))] in
  _path f = Some p ∧ _opcodes f = None ∧
  (p ∉ included_files Demo.fresh) ∧
  (zend_stream_open_raw p (ext Demo.fresh)).1 = None ∧
  ∃ w1, File_once f Demo.fresh = (Ok None, f, w1) ∧
        File_once f (elapse readable w1) = (Ok None, f, elapse readable w1).
Proof.
  intros f p readable.
  assert (p ∉ included_files Demo.fresh) as Hfresh
    by (cbn; apply not_elem_of_empty).
  assert ((zend_stream_open_raw p (ext Demo.fresh)).1 = None) as Hfails
    by reflexivity.
  split; [reflexivity|]. split; [reflexivity|].
  split; [exact Hfresh|]. split; [exact Hfails|].
  destruct (once_after_failed_open_is_final f Demo.fresh p
              eq_refl eq_refl Hfresh Hfails)
    as (w1 & Hfirst & _ & _ & Hlater).
  exists w1. split; [exact Hfirst|].
  exact (Hlater readable f eq_refl).
Defined.

Lemma execute_bypasses_the_table_witness :
  let f := File_new "c.inc" Demo.fresh in
  let p := "/scripts/c.inc"%string in
  let first := File_execute f Demo.fresh in
  _path f = Some p ∧
  executions first.2 = S (executions Demo.fresh) ∧
  (p ∉ included_files first.2) ∧
  executions (File_once first.1.2 first.2).2 = 2.
Proof.
  intros f p first.
  assert (executions first.2 = S (executions Demo.fresh)) as Hran
    by (vm_compute; reflexivity).
  assert (p ∉ included_files first.2) as Hout.
  { assert (included_files first.2 = ∅) as -> by (vm_compute; reflexivity).
    apply not_elem_of_empty. }
  split; [reflexivity|]. split; [exact Hran|]. split; [exact Hout|].
  destruct (execute_bypasses_the_table f Demo.fresh p) as [_ Htwice].
  exact (Htwice eq_refl Hran Hout).
Defined.

Lemma execution_fault_keeps_the_unit_witness :
  let f := File_new "c.inc" Demo.fresh in
  let first := File_execute f Demo.fresh in
  first = (Thrown "boom"%string, first.1.2, first.2) ∧
  executions first.2 = S (executions Demo.fresh) ∧
  ∃ o, _opcodes first.1.2 = Some o ∧
       trace (File_execute first.1.2 first.2).2
         = EvExecute (op_array o) :: trace first.2.
Proof.
  intros f first.
  assert (first = (Thrown "boom"%string, first.1.2, first.2)) as Hfirst
    by (vm_compute; reflexivity).
  assert (executions first.2 = S (executions Demo.fresh)) as Hran
    by (vm_compute; reflexivity).
  split; [exact Hfirst|]. split; [exact Hran|].
  destruct (execution_fault_keeps_the_unit f Demo.fresh "boom"%string
              first.1.2 first.2 Hfirst Hran) as (o & Ho & Hlater).
  exists o. split; [exact Ho|].
  exact (proj2 (Hlater first.2)).
Defined.

(** The file is deleted after [valid()] has returned true. *)
Lemma valid_instance_never_touches_the_filesystem_witness :
  let f := File_new "a.inc" Demo.fresh in
  let first := File_valid f Demo.fresh in
  let steps :=
    [((λ _ : Demo.Disk, []), call_exists); ((λ d, d), call_execute);
     ((λ d, d), call_valid)] in
  first = (Ok true, first.1.2, first.2) ∧
  fs_accesses (session first.1.2 first.2 steps).2 = fs_accesses first.2.
Proof.
  intros f first steps.
  assert (first = (Ok true, first.1.2, first.2)) as Hfirst
    by (vm_compute; reflexivity).
  split; [exact Hfirst|].
  destruct (valid_instance_never_touches_the_filesystem f Demo.fresh
              first.1.2 first.2 steps first.2 Hfirst) as (_ & Hfs & _).
  exact Hfs.
Defined.

Lemma table_is_only_added_to_witness :
  let f := File_new "a.inc" Demo.fresh in
  let steps := [((λ d : Demo.Disk, d), call_once); ((λ d, d), call_execute)] in
  registry_grows (Eng := Demo.php) ∧
  included_files Demo.fresh ⊆ included_files (session f Demo.fresh steps).2.
Proof.
  intros f steps. split; [apply php_registry_grows|].
  destruct (table_is_only_added_to f Demo.fresh) as (_ & _ & _ & Hgrows).
  exact (Hgrows php_registry_grows steps).
Defined.

Lemma first_run_needs_valid_program_witness :
  let f := File_new "a.inc" Demo.fresh in
  let first := File_once f Demo.fresh in
  _opcodes f = None ∧
  executions first.2 = S (executions Demo.fresh) ∧
  ∃ o, _opcodes first.1.2 = Some o ∧ Opcodes_valid o = true.
Proof.
  intros f first.
  assert (executions first.2 = S (executions Demo.fresh)) as Hran
    by (vm_compute; reflexivity).
  split; [reflexivity|]. split; [exact Hran|].
  destruct (first_run_needs_valid_program f Demo.fresh eq_refl) as [_ Honce].
  exact (Honce Hran).
Defined.
